(** * PhonePriceScraper: the price parser, the listing extraction and the
      outlier-normalised price range of [scrapper.py]

    The development embeds the three pieces of logic of [scrapper.py]:
    [GermanGoogleScraper._extract_price] (a regular expression over a text
    fragment and a call of [float]), [GermanGoogleScraper._extract_prices]
    (a loop that allocates [Price] objects and patches the last one) and
    [Phone.remove_outliers] with the two properties [Phone.cheapest] and
    [Phone.most_expensive].  It also embeds [GermanGoogleScraper._url], the
    part of [PriceScraper.lookup_price] that follows the download, and
    [read_infos] on the text of the input file.

    Python values are modelled as the interpreter has them:
    - a [float] is an IEEE 754 binary64 number, here Rocq's primitive [float]
      with its round-to-nearest-even operations;
    - a [str] is a sequence of Unicode code points;
    - an exception is a value of [exn], and a call that may raise returns
      [result];
    - [Price] objects live in a heap and are reached through references, so
      that [last] and the element appended to [prices] alias. *)

From Stdlib Require Import ZArith NArith List Ascii String Floats Lia Bool.
From Stdlib Require Uint63.
From stdpp Require Import base list.
Import ListNotations.

(** ** Python floats *)

Module PyFloat.

#[local] Open Scope Z_scope.

(** [float(n)] for an integer [n]: the nearest binary64 number, ties to
even (an [int] that is an operand of a [float] operation is converted
this way). *)
Definition of_Z (n : Z) : float :=
SF2Prim (binary_normalize prec emax n 0 false).

Definition of_nat (n : nat) : float := of_Z (Z.of_nat n).

Definition Z2SF (n : Z) : spec_float :=
match n with
| Z0 => S754_zero false
| Zpos p => S754_finite false p 0
| Zneg p => S754_finite true p 0
end.

(** The binary64 number nearest to the rational [n / 10 ^ k], ties to
even: what [float] returns for the decimal literal whose digits are
those of [n] with the point [k] places from the right.  One integer
division with a remainder-based rounding, so the quotient is rounded
once. *)
Definition of_decimal (n : Z) (k : nat) : float :=
SF2Prim (SFdiv prec emax (Z2SF n) (Z2SF (10 ^ Z.of_nat k))).

End PyFloat.

(** ** Python strings *)

(** A [str] is a sequence of code points.  String literals of this file are
    written as Rocq strings, which hold UTF-8 bytes, and decoded by [py]. *)
Abbreviation char := N (only parsing).
Abbreviation str := (list N) (only parsing).

Module PyStr.

#[local] Open Scope N_scope.

(** UTF-8 decoding of well-formed input; a byte that starts no sequence is
kept as it is. *)
Fixpoint decode_utf8 (bs : list N) : str :=
match bs with
| [] => []
| b0 :: bs1 =>
  if b0 <? 192 then b0 :: decode_utf8 bs1
  else
    match bs1 with
    | [] => [b0]
    | b1 :: bs2 =>
        if b0 <? 224 then
          ((b0 - 192) * 64 + (b1 - 128)) :: decode_utf8 bs2
        else
          match bs2 with
          | [] => [b0; b1]
          | b2 :: bs3 =>
              if b0 <? 240 then
                ((b0 - 224) * 4096 + (b1 - 128) * 64 + (b2 - 128))
                  :: decode_utf8 bs3
              else
                match bs3 with
                | [] => [b0; b1; b2]
                | b3 :: bs4 =>
                    ((b0 - 240) * 262144 + (b1 - 128) * 4096
                     + (b2 - 128) * 64 + (b3 - 128))
                      :: decode_utf8 bs4
                end
          end
    end
end.

Definition py (s : string) : str :=
decode_utf8 (List.map N_of_ascii (list_ascii_of_string s)).
#[global] Arguments py : simpl never.

Definition comma : char := 44.
Definition full_stop : char := 46.
Definition euro_sign : char := 8364.

(** The code points of the digit zero of every block of decimal digits
(general category Nd) of the Unicode database of CPython 3.11
(Unicode 14.0).  Each block is ten consecutive code points, the digits
0 to 9 in order.  [\d] in a [str] pattern and [float] both read this
table ([Py_UNICODE_ISDECIMAL], [Py_UNICODE_TODECIMAL]). *)
Definition decimal_zeros : list N :=
[48; 1632; 1776; 1984; 2406; 2534; 2662; 2790; 2918; 3046; 3174; 3302;
 3430; 3558; 3664; 3792; 3872; 4160; 4240; 6112; 6160; 6470; 6608; 6784;
 6800; 6992; 7088; 7232; 7248; 42528; 43216; 43264; 43472; 43504; 43600;
 44016; 65296; 66720; 68912; 69734; 69872; 69942; 70096; 70384; 70736;
 70864; 71248; 71360; 71472; 71904; 72016; 72784; 73040; 73120; 92768;
 92864; 93008; 120782; 120792; 120802; 120812; 120822; 123200; 123632;
 125264; 130032].

Definition in_block (c z : N) : bool := (z <=? c) && (c <? z + 10).

(** [unicodedata.decimal(c, None)] *)
Definition decimal (c : char) : option N :=
match List.find (in_block c) decimal_zeros with
| Some z => Some (c - z)
| None => None
end.

(** [\d] *)
Definition is_digit (c : char) : bool :=
match decimal c with Some _ => true | None => false end.

(** [s.startswith(p)] *)
Fixpoint startswith (s p : str) : bool :=
match p, s with
| [], _ => true
| _ :: _, [] => false
| a :: p', b :: s' => (a =? b) && startswith s' p'
end.

(** [int(s)] for a string of decimal digits: most significant first. *)
Definition digit_value (c : char) : Z :=
match decimal c with Some d => Z.of_N d | None => 0%Z end.

Definition int_of_digits (s : str) : Z :=
fold_left (fun acc c => (10 * acc + digit_value c)%Z) s 0%Z.

(** [float] applied to [number], a full stop and [decimal], for two
non-empty strings of decimal digits: the literal denotes
[int(number ++ decimal)] divided by ten to the length of [decimal],
and [float] rounds it correctly. *)
Definition float_of_digits (number decimal : str) : float :=
PyFloat.of_decimal (int_of_digits (number ++ decimal)) (length decimal).

End PyStr.

Import PyStr.

(** ** Exceptions *)

(** The exceptions the modelled code can raise, with their message. *)
Inductive exn : Type :=
| Exception (msg : str)           (* [raise Exception(msg)] *)
| AttributeError (msg : str)      (* attribute access on [None] *)
| ZeroDivisionError (msg : str)   (* [x / 0] *)
| ValueError (msg : str).         (* [min([])], [max([])] *)

Inductive result (A : Type) : Type :=
| Return (a : A)
| Raise (e : exn).
Arguments Return {A} a.
Arguments Raise {A} e.

#[global] Instance result_ret : MRet result := fun A a => Return a.
#[global] Instance result_bind : MBind result := fun A B f m =>
  match m with
  | Return a => f a
  | Raise e => Raise e
  end.

(** ** The price pattern

    [re.findall] with the pattern of [_extract_price], which reads, spaced
    out, [( \d+ (?: \. \d+ )* ) (?: , ( \d+ ) )?].  Every part after the
    leading [\d+] is optional and each quantifier is greedy, so a match
    attempt that starts at a digit succeeds with the greedy choice at every
    step and never backtracks; an attempt that starts elsewhere fails.  The
    scan below makes exactly these choices. *)
Module Pattern.

(** [\d*] at the start of [s]: the digits and the rest. *)
Fixpoint digits (s : str) : str * str :=
match s with
| c :: s' =>
  if is_digit c then let '(ds, r) := digits s' in (c :: ds, r)
  else ([], s)
| [] => ([], [])
end.

(** [\d*(?:\.\d+)*] at the start of [s]: after the digits, a full stop is
taken only when a digit follows it. *)
Fixpoint integer_part (s : str) : str * str :=
match s with
| c :: s' =>
  if is_digit c then
    let '(g, r) := integer_part s' in (c :: g, r)
  else if (c =? full_stop)%N then
    match s' with
    | d :: _ =>
        if is_digit d then
          let '(g, r) := integer_part s' in (c :: g, r)
        else ([], s)
    | [] => ([], s)
    end
  else ([], s)
| [] => ([], [])
end.

(** [(?:,(\d+))?] at the start of [s]: the group (empty when it takes no
part in the match, as [findall] reports it) and the rest. *)
Definition fraction_part (s : str) : str * str :=
match s with
| c :: s' =>
  if (c =? comma)%N then
    match digits s' with
    | ([], _) => ([], s)
    | (ds, r) => (ds, r)
    end
  else ([], s)
| [] => ([], [])
end.

(** The text from its first digit on: where the first match starts. *)
Fixpoint search (s : str) : str :=
match s with
| c :: s' => if is_digit c then s else search s'
| [] => []
end.

(** The matches of the pattern in [s], left to right and not overlapping,
each as its two groups.  [fuel] bounds the number of matches. *)
Fixpoint findall_fuel (fuel : nat) (s : str) : list (str * str) :=
match fuel with
| O => []
| S fuel' =>
  match search s with
  | [] => []
  | s1 =>
      let '(g1, r1) := integer_part s1 in
      let '(g2, r2) := fraction_part r1 in
      (g1, g2) :: findall_fuel fuel' r2
  end
end.

(** A match consumes at least one character, so [length s] matches are
all there can be. *)
Definition findall (s : str) : list (str * str) :=
findall_fuel (length s) s.

(** [re.findall] with the pattern [\d+]: the maximal runs of digits of
[s]. *)
Fixpoint findall_digits_fuel (fuel : nat) (s : str) : list str :=
match fuel with
| O => []
| S fuel' =>
  match search s with
  | [] => []
  | s1 => let '(ds, r) := digits s1 in ds :: findall_digits_fuel fuel' r
  end
end.

Definition findall_digits (s : str) : list str :=
findall_digits_fuel (length s) s.

End Pattern.

(** ** [GermanGoogleScraper._extract_price] *)

Definition _extract_price (text : str) : result float :=
  match Pattern.findall text with
  | [] => Raise (Exception (py "no price found in '" ++ text ++ py "'"))
  | (g1, g2) :: _ =>
      let number := concat (Pattern.findall_digits g1) in
      let decimal := match g2 with [] => py "0" | _ => g2 end in
      Return (float_of_digits number decimal)
  end.

(** ** [Price] *)

Record Price : Type := { base_price : float; shipping : float }.

(** [Price(base_price)]: the parameter [shipping] defaults to [0]. *)
Definition new_Price (base : float) : Price :=
  {| base_price := base; shipping := 0 |}.

(** [p.shipping = v] *)
Definition set_shipping (v : float) (p : Price) : Price :=
  {| base_price := base_price p; shipping := v |}.

Definition total (self : Price) : float :=
  (base_price self + shipping self)%float.

(** ** [GermanGoogleScraper._extract_prices]

    The function receives the parsed page and asks the HTML library for the
    text nodes that contain the euro sign; the model starts from these
    fragments, [price_tags], in document order.

    The [Price] objects are cells of a heap and the variables [prices] and
    [last] hold references, so the object appended to [prices] is the one a
    later [last.shipping = ...] patches.  The frame also records, in program
    order, every object creation and every attribute store of the loop. *)
Module Listing.

(** A reference is the index of the object in the heap. *)
Abbreviation ref := nat (only parsing).

Inductive event : Type :=
| New (r : ref) (base : float)
| SetShipping (r : ref) (v : float).

Record frame : Type := {
heap : list Price;
prices : list ref;
last : option ref;
trace : list event
}.

(** [prices = []], [last = None] *)
Definition init : frame :=
{| heap := []; prices := []; last := None; trace := [] |}.

(** The body of the loop for one fragment [pt].  In
[last.shipping = self._extract_price(pt)] the right-hand side is
evaluated before the attribute of [last] is reached. *)
Definition body (fr : frame) (pt : str) : result frame :=
if startswith pt (py "+") then
v ← _extract_price pt;
match last fr with
| None =>
    Raise (AttributeError
             (py "'NoneType' object has no attribute 'shipping'"))
| Some r =>
    Return {| heap := alter (set_shipping v) r (heap fr);
              prices := prices fr;
              last := last fr;
              trace := trace fr ++ [SetShipping r v] |}
end
else
v ← _extract_price pt;
let r := length (heap fr) in
Return {| heap := heap fr ++ [new_Price v];
          prices := prices fr ++ [r];
          last := Some r;
          trace := trace fr ++ [New r v] |}.

Fixpoint loop (fr : frame) (price_tags : list str) : result frame :=
match price_tags with
| [] => Return fr
| pt :: rest => fr' ← body fr pt; loop fr' rest
end.

Definition run (price_tags : list str) : result frame :=
loop init price_tags.

(** The objects a list of references denotes in a heap. *)
Definition deref (h : list Price) (rs : list ref) : list Price :=
omap (h !!.) rs.

(** How many times the loop stored into the [shipping] attribute of the
object [r]. *)
Definition stores_to (r : ref) (tr : list event) : nat :=
length (List.filter
        (fun ev => match ev with
                   | SetShipping r' _ => Nat.eqb r r'
                   | New _ _ => false
                   end) tr).

End Listing.

(** [return prices]: the caller reads the objects of the returned list. *)
Definition _extract_prices (price_tags : list str) : result (list Price) :=
  fr ← Listing.run price_tags;
  mret (Listing.deref (Listing.heap fr) (Listing.prices fr)).

(** ** [Phone] *)

Record PhoneInfo : Type := {
  manufacturer : str;
  model_name : str;
  model_code : str;
  ram : str;
  form_factor : str;
  soc : str;
  screen_sizes : str;
  screen_densities : str;
  ABIs : str;
  android_sdk_versions : str;
  opengl_es_versions : str
}.

Record Phone : Type := { info : PhoneInfo; prices : list Price }.

(** [sum(xs)] for a list of floats: additions from the left, starting from
    [0] (the interpreter of the time of the program; CPython 3.12 and later
    add a compensation term). *)
Definition py_sum (xs : list float) : float :=
  fold_left PrimFloat.add xs 0%float.

(** [x / n] for a float [x] and an integer [n] *)
Definition truediv (x : float) (n : nat) : result float :=
  match n with
  | O => Raise (ZeroDivisionError (py "float division by zero"))
  | S _ => Return (x / PyFloat.of_nat n)%float
  end.

(** [min(xs)]: the first item, replaced by each later item that is [<] it. *)
Definition py_min (xs : list float) : result float :=
  match xs with
  | [] => Raise (ValueError (py "min() arg is an empty sequence"))
  | x :: rest =>
      Return (fold_left (fun m y => if (y <? m)%float then y else m) rest x)
  end.

(** [max(xs)]: the first item, replaced by each later item that is [>] it. *)
Definition py_max (xs : list float) : result float :=
  match xs with
  | [] => Raise (ValueError (py "max() arg is an empty sequence"))
  | x :: rest =>
      Return (fold_left (fun m y => if (m <? y)%float then y else m) rest x)
  end.

(** [_fold]: the reduction [f] of the totals, or [default] for an empty
    list.  The default [0] of the source is the integer, which equals the
    float [0.0] it is taken for here. *)
Definition _fold (xs : list Price) (f : list float -> result float)
    (default : float) : result float :=
  if Nat.eqb (length xs) 0 then Return default
  else f (List.map total xs).

(** [remove_outliers]: the guard on the empty list, then the mean of all
    totals and one filter over [self.prices]. *)
Definition remove_outliers (self : Phone) (deviation : float)
  : result (list Price) :=
  if Nat.eqb (length (prices self)) 0 then Return (prices self)
  else
    avg ← truediv (py_sum (List.map total (prices self)))
                  (length (prices self));
    Return (List.filter
              (fun p => (abs (avg - total p) <? deviation * avg)%float)
              (prices self)).

(** The default of the parameter [deviation]. *)
Definition default_deviation : float := 0.5%float.

(** The two properties; [normalised] is their second parameter, which a
    property access leaves at its default [True]. *)
Definition normalised_prices (self : Phone) (normalised : bool)
  : result (list Price) :=
  if normalised then remove_outliers self default_deviation
  else Return (prices self).

Definition cheapest_of (self : Phone) (normalised : bool) : result float :=
  xs ← normalised_prices self normalised; _fold xs py_min 0%float.

Definition most_expensive_of (self : Phone) (normalised : bool)
  : result float :=
  xs ← normalised_prices self normalised; _fold xs py_max 0%float.

Definition cheapest (self : Phone) : result float := cheapest_of self true.

Definition most_expensive (self : Phone) : result float :=
  most_expensive_of self true.

(** ** Vocabulary of the statements *)

(** A fragment with at least one digit. *)
Definition has_digit (text : str) : bool := existsb is_digit text.

(** A non-empty string of decimal digits. *)
Definition number_run (ds : str) : bool :=
  match ds with [] => false | _ :: _ => forallb is_digit ds end.

(** Groups of digits joined by full stops: [1.234.567]. *)
Definition join_groups (groups : list str) : str :=
  match groups with
  | [] => []
  | g :: gs => g ++ concat (List.map (cons full_stop) gs)
  end.

(** The text of the fractional part: a comma and its digits, or nothing. *)
Definition fraction_text (frac : option str) : str :=
  match frac with Some f => comma :: f | None => [] end.

(** [rest] cannot extend a match that ends before it: it does not start with
    a digit and, when the match has no fractional part, not with a full stop
    or a comma that a digit follows. *)
Definition stops (frac : option str) (rest : str) : bool :=
  match rest with
  | [] => true
  | c :: rest' =>
      negb (is_digit c)
      && match frac with
         | Some _ => true
         | None =>
             negb (((c =? full_stop)%N || (c =? comma)%N)
                   && match rest' with d :: _ => is_digit d | [] => false end)
         end
  end.

(** [text] read as: a prefix without digits, the first number (groups of
    digits, an optional fractional part), and the rest, which does not extend
    the number. *)
Definition first_number (text pre : str) (groups : list str)
    (frac : option str) (rest : str) : Prop :=
  text = pre ++ join_groups groups ++ fraction_text frac ++ rest
  /\ has_digit pre = false
  /\ groups <> []
  /\ forallb number_run groups = true
  /\ match frac with Some f => number_run f = true | None => True end
  /\ stops frac rest = true.

(** The value of the number in the locale of the scraper: the full stops
    group thousands and are dropped, the comma separates the fraction, and
    an absent fraction is [0]. *)
Definition locale_value (groups : list str) (frac : option str) : float :=
  float_of_digits (concat groups)
                  (match frac with Some f => f | None => py "0" end).

(** The groups that follow the first one, each after its full stop. *)
Definition dotted (gs : list str) : str :=
  concat (List.map (cons full_stop) gs).

(** [tail] starts no further group: not a digit, and not a full stop that a
    digit follows. *)
Definition no_group (tail : str) : bool :=
  match tail with
  | [] => true
  | c :: r =>
      negb (is_digit c)
      && negb ((c =? full_stop)%N
               && match r with d :: _ => is_digit d | [] => false end)
  end.

(** A fragment that annotates the shipping cost of the price before it. *)
Definition is_shipping (pt : str) : bool := startswith pt (py "+").

(** The frames the loop goes through: [prices] holds the references of all
    objects in creation order and [last] is the newest of them. *)
Definition frame_inv (fr : Listing.frame) : Prop :=
  Listing.prices fr = seq 0 (length (Listing.heap fr))
  /\ Listing.last fr = match length (Listing.heap fr) with
                       | O => None
                       | S n => Some n
                       end.

(** The exception of an attribute access on [None]: a null-reference fault. *)
Definition null_reference_fault (e : exn) : bool :=
  match e with AttributeError _ => true | _ => false end.

(** The object an event creates or patches. *)
Definition event_ref (ev : Listing.event) : Listing.ref :=
  match ev with
  | Listing.New r _ => r
  | Listing.SetShipping r _ => r
  end.

(** The trace speaks of objects of the heap only. *)
Definition trace_inv (fr : Listing.frame) : Prop :=
  Forall (fun ev => (event_ref ev < length (Listing.heap fr))%nat)
         (Listing.trace fr).

(** The fragments that create a [Price]. *)
Definition price_fragments (price_tags : list str) : list str :=
  List.filter (fun pt => negb (is_shipping pt)) price_tags.

(** No two shipping annotations follow one another. *)
Fixpoint no_adjacent_shipping (price_tags : list str) : bool :=
  match price_tags with
  | pt :: rest =>
      match rest with
      | pt' :: _ => negb (is_shipping pt && is_shipping pt')
      | [] => true
      end && no_adjacent_shipping rest
  | [] => true
  end.

(** The list is empty or starts with a fragment that creates a [Price]. *)
Definition starts_price (price_tags : list str) : bool :=
  match price_tags with
  | [] => true
  | pt :: _ => negb (is_shipping pt)
  end.

(** A float that is a number ([x == x] in Python). *)
Definition not_nan (x : float) : Prop := Prim2SF x <> S754_nan.

(** The arithmetic mean of the totals, as [remove_outliers] computes it for a
    non-empty list. *)
Definition mean (xs : list float) : float :=
  (py_sum xs / PyFloat.of_nat (length xs))%float.

(** The filter of [remove_outliers]: the deviation of the total of [p] from
    [avg] is strictly below [deviation] times [avg]. *)
Definition within (deviation avg : float) (p : Price) : bool :=
  (abs (avg - total p) <? deviation * avg)%float.

(** Outlier removal in the words of its contract: the prices whose total is
    within the threshold of the mean of all totals. *)
Definition outliers_removed (deviation : float) (ps : list Price)
  : list Price :=
  List.filter (within deviation (mean (List.map total ps))) ps.

(** The decimal literal whose digits are those of [n], with the point [k]
    places from the right, as a float: [literal 2498 2] is [24.98]. *)
Definition literal (n : Z) (k : nat) : float := PyFloat.of_decimal n k.

(** A device of the input file, for the examples. *)
Definition sample_info : PhoneInfo :=
  {| manufacturer := py "Google"; model_name := py "Pixel 4";
     model_code := py "flame"; ram := py "5464MB"; form_factor := py "Phone";
     soc := py "Qualcomm SM8150"; screen_sizes := py "1080x2280";
     screen_densities := py "440"; ABIs := py "arm64-v8a";
     android_sdk_versions := py "29"; opengl_es_versions := py "3.2" |}.

(** The sample device with one [Price] without shipping for each total. *)
Definition phone_of_totals (totals : list float) : Phone :=
  {| info := sample_info; prices := List.map new_Price totals |}.

(** ** [GermanGoogleScraper._url] *)

Definition space : char := 32%N.
Definition plus_sign : char := 43%N.

(** [s.replace(old, new)] for two strings of one character each. *)
Definition replace_char (old new : char) (s : str) : str :=
  List.map (fun c => if (c =? old)%N then new else c) s.

Definition url_prefix : str := py "https://www.google.com/search?q=".
Definition url_suffix : str := py "&tbm=shop".

Definition _url (info : PhoneInfo) : str :=
  url_prefix ++ replace_char space plus_sign (model_name info) ++ url_suffix.

(** ** [PriceScraper.lookup_price]

    The part of the method that follows the download and the parsing of the
    page: from the fragments the page yields to the [Phone].  The two
    [print] calls are left out; the second evaluates [cheapest] and
    [most_expensive]. *)
Definition lookup_price (i : PhoneInfo) (price_tags : list str)
  : result Phone :=
  ps ← _extract_prices price_tags;
  Return {| info := i; prices := ps |}.

(** ** [read_infos]

    The function opens the file in text mode, drops the first line and turns
    every remaining line into a [PhoneInfo].  The model starts from the
    decoded text of the file. *)
Module Infos.

Definition line_feed : char := 10%N.
Definition carriage_return : char := 13%N.

(** What [PhoneInfo(...)] returns or raises: a named tuple takes exactly its
    eleven fields, and any other number of arguments is a [TypeError] (here
    with the number of arguments given). *)
Inductive outcome (A : Type) : Type :=
| Ok (a : A)
| TypeError (given : nat).
Arguments Ok {A} a.
Arguments TypeError {A} given.

(** Text mode with the default [newline=None]: a carriage return, with the
    line feed that may follow it, is read as one line feed. *)
Fixpoint universal_newlines (s : str) : str :=
  match s with
  | [] => []
  | c :: rest =>
      if (c =? carriage_return)%N then
        match rest with
        | d :: rest' =>
            if (d =? line_feed)%N then line_feed :: universal_newlines rest'
            else line_feed :: universal_newlines rest
        | [] => [line_feed]
        end
      else c :: universal_newlines rest
  end.

(** What [fh.read()] returns after one [fh.readline()]: the text after the
    first line feed, or nothing when there is none. *)
Fixpoint after_readline (s : str) : str :=
  match s with
  | [] => []
  | c :: rest => if (c =? line_feed)%N then rest else after_readline rest
  end.

(** [s.split(sep)] for a separator of one character: the pieces between
    the separators, one more than there are separators. *)
Fixpoint split (sep : char) (s : str) : list str :=
  match s with
  | [] => [[]]
  | c :: rest =>
      if (c =? sep)%N then [] :: split sep rest
      else
        match split sep rest with
        | piece :: pieces => (c :: piece) :: pieces
        | [] => [[c]]
        end
  end.

(** [PhoneInfo] applied to the fields of a line *)
Definition PhoneInfo_of (fields : list str) : outcome PhoneInfo :=
  match fields with
  | [a; b; c; d; e; f; g; h; i; j; k] =>
      Ok {| manufacturer := a; model_name := b; model_code := c; ram := d;
            form_factor := e; soc := f; screen_sizes := g;
            screen_densities := h; ABIs := i; android_sdk_versions := j;
            opengl_es_versions := k |}
  | _ => TypeError (length fields)
  end.

(** The list comprehension: the lines in order, up to the first that
    raises. *)
Fixpoint comprehension (lines : list str) : outcome (list PhoneInfo) :=
  match lines with
  | [] => Ok []
  | line :: rest =>
      match PhoneInfo_of (split comma line) with
      | Ok x =>
          match comprehension rest with
          | Ok xs => Ok (x :: xs)
          | TypeError n => TypeError n
          end
      | TypeError n => TypeError n
      end
  end.

Definition read_infos (text : str) : outcome (list PhoneInfo) :=
  comprehension (split line_feed (after_readline (universal_newlines text))).

End Infos.

(** ** Vocabulary of the further statements *)

(** A float that is zero, positive or plus infinity: [0 <= x]. *)
Definition nonneg (x : float) : Prop := (0 <=? x)%float = true.

(** The fields of a device, in the order of the columns. *)
Definition fields_of (i : PhoneInfo) : list str :=
  [manufacturer i; model_name i; model_code i; ram i; form_factor i; soc i;
   screen_sizes i; screen_densities i; ABIs i; android_sdk_versions i;
   opengl_es_versions i].

(** A field that a line of the file can hold as it is: no comma and no
    line break. *)
Definition plain_field (s : str) : bool :=
  forallb (fun c => negb ((c =? comma)%N || (c =? Infos.line_feed)%N
                          || (c =? Infos.carriage_return)%N)) s.

(** A header line: no line break. *)
Definition plain_line (s : str) : bool :=
  forallb (fun c => negb ((c =? Infos.line_feed)%N
                          || (c =? Infos.carriage_return)%N)) s.

(** Strings joined by a separator: [sep.join(pieces)]. *)
Fixpoint join (sep : char) (pieces : list str) : str :=
  match pieces with
  | [] => []
  | [p] => p
  | p :: rest => p ++ sep :: join sep rest
  end.

(** The text of an input file with the given header line and devices: one
    line each, the fields separated by commas, no line feed at the end. *)
Definition file_text (header : str) (infos : list PhoneInfo) : str :=
  header ++ Infos.line_feed
    :: join Infos.line_feed (List.map (fun i => join comma (fields_of i)) infos).

(** A [spec_float] that is zero, positive or plus infinity. *)
Definition SF_nonneg (x : spec_float) : Prop :=
  match x with
  | S754_zero _ | S754_infinity false | S754_finite false _ _ => True
  | _ => False
  end.

(** A [spec_float] that is zero or finite. *)
Definition SF_finite (x : spec_float) : Prop :=
  match x with
  | S754_zero _ | S754_finite _ _ _ => True
  | _ => False
  end.

(** A [spec_float] that is an infinity or no number. *)
Definition SF_overflow (x : spec_float) : Prop :=
  match x with
  | S754_infinity _ | S754_nan => True
  | _ => False
  end.

(** A [Price] whose base price and shipping are not negative. *)
Definition Price_nonneg (p : Price) : Prop :=
  nonneg (base_price p) /\ nonneg (shipping p).

(** * Proofs *)

(** ** Floats: the order of [spec_float] *)

(** Case analysis on the comparisons of exponents and mantissas that
    [SFcompare] makes. *)
Ltac cmp_cases :=
  repeat match goal with
    | H : context [Z.compare ?a ?b] |- _ =>
        destruct (Z.compare_spec a b); try discriminate
    | |- context [Z.compare ?a ?b] =>
        destruct (Z.compare_spec a b); try discriminate
    | H : context [Pos.compare_cont Eq ?a ?b] |- _ =>
        change (Pos.compare_cont Eq a b) with (Pos.compare a b) in *;
        destruct (Pos.compare_spec a b); try discriminate
    | |- context [Pos.compare_cont Eq ?a ?b] =>
        change (Pos.compare_cont Eq a b) with (Pos.compare a b) in *;
        destruct (Pos.compare_spec a b); try discriminate
    end;
  simpl in *; try discriminate; try reflexivity; try lia.

Lemma SFleb_trans a b c :
  SFleb a b = true -> SFleb b c = true -> SFleb a c = true.
Proof.
  unfold SFleb, SFcompare.
  destruct a as [[]|[]| |[] ma ea], b as [[]|[]| |[] mb eb],
    c as [[]|[]| |[] mc ec]; try discriminate; try reflexivity;
    intros H1 H2; cmp_cases.
Qed.

Lemma SFltb_SFleb a b : SFltb a b = true -> SFleb a b = true.
Proof.
  unfold SFltb, SFleb. destruct (SFcompare a b) as [[]|]; congruence.
Qed.

Lemma SFltb_false_SFleb a b :
  a <> S754_nan -> b <> S754_nan -> SFltb a b = false -> SFleb b a = true.
Proof.
  unfold SFleb, SFltb, SFcompare.
  destruct a as [[]|[]| |[] ma ea], b as [[]|[]| |[] mb eb];
    try congruence; try reflexivity; intros _ _ H; cmp_cases.
Qed.

Lemma SFleb_refl a : a <> S754_nan -> SFleb a a = true.
Proof.
  unfold SFleb, SFcompare.
  destruct a as [[]|[]| |[] ma ea]; try congruence; try reflexivity;
    intros _; cmp_cases.
Qed.

(** ** The price pattern *)

(** *** Digits and search *)

Lemma is_digit_full_stop : is_digit full_stop = false.
Proof. reflexivity. Qed.
Lemma is_digit_comma : is_digit comma = false.
Proof. reflexivity. Qed.

Lemma number_run_cons ds :
  number_run ds = true ->
  exists c ds', ds = c :: ds' /\ is_digit c = true /\ forallb is_digit ds' = true.
Proof.
  destruct ds as [|c ds']; simpl; [discriminate|].
  intros H. apply andb_true_iff in H. destruct H. eauto.
Qed.

(** [digits] takes a block of digits up to a character that is none. *)
Lemma digits_app ds rest :
  forallb is_digit ds = true ->
  match rest with [] => true | c :: _ => negb (is_digit c) end = true ->
  Pattern.digits (ds ++ rest) = (ds, rest).
Proof.
  intros Hds Hrest. induction ds as [|c ds IH]; simpl in *.
  - destruct rest as [|c r]; simpl; [reflexivity|].
    apply negb_true_iff in Hrest. now rewrite Hrest.
  - apply andb_true_iff in Hds. destruct Hds as [Hc Hds].
    rewrite Hc, (IH Hds). reflexivity.
Qed.

Lemma digits_split s ds r :
  Pattern.digits s = (ds, r) ->
  s = ds ++ r /\ forallb is_digit ds = true
  /\ match r with [] => true | c :: _ => negb (is_digit c) end = true.
Proof.
  revert ds r. induction s as [|c s IH]; simpl; intros ds r H.
  - inversion H; subst. auto.
  - destruct (is_digit c) eqn:Hc.
    + destruct (Pattern.digits s) as [ds' r'] eqn:E. inversion H; subst.
      destruct (IH _ _ eq_refl) as (-> & Hd & Hr). simpl. rewrite Hc. auto.
    + inversion H; subst. simpl. rewrite Hc. auto.
Qed.

Lemma search_app pre s :
  has_digit pre = false ->
  Pattern.search (pre ++ s) = Pattern.search s.
Proof.
  unfold has_digit. induction pre as [|c pre IH]; simpl; [reflexivity|].
  intros H. apply orb_false_iff in H. destruct H as [Hc H].
  rewrite Hc. auto.
Qed.

Lemma search_digit c s : is_digit c = true -> Pattern.search (c :: s) = c :: s.
Proof. simpl. now intros ->. Qed.

Lemma search_split s :
  exists pre, s = pre ++ Pattern.search s /\ has_digit pre = false.
Proof.
  induction s as [|c s (pre & E & H)]; simpl.
  - exists []. auto.
  - destruct (is_digit c) eqn:Hc.
    + exists []. auto.
    + exists (c :: pre). simpl. unfold has_digit in *. simpl.
      rewrite Hc, H. split; [congruence | reflexivity].
Qed.

Lemma search_nil s : Pattern.search s = [] <-> has_digit s = false.
Proof.
  unfold has_digit. induction s as [|c s IH]; simpl; [tauto|].
  destruct (is_digit c); simpl; [split; discriminate | exact IH].
Qed.

Lemma search_head s c r : Pattern.search s = c :: r -> is_digit c = true.
Proof.
  induction s as [|d s IH]; simpl; [discriminate|].
  destruct (is_digit d) eqn:Hd; [|exact IH].
  intros H; inversion H; subst; assumption.
Qed.

(** *** The integer part and the fraction *)

Lemma integer_part_cons_digit c s :
  is_digit c = true ->
  Pattern.integer_part (c :: s) =
    let '(g, r) := Pattern.integer_part s in (c :: g, r).
Proof. intros H. cbn [Pattern.integer_part]. now rewrite H. Qed.

Lemma integer_part_cons_dot d s :
  is_digit d = true ->
  Pattern.integer_part (full_stop :: d :: s) =
    let '(g, r) := Pattern.integer_part (d :: s) in (full_stop :: g, r).
Proof.
  intros H. cbn [Pattern.integer_part].
  rewrite is_digit_full_stop, N.eqb_refl, H. reflexivity.
Qed.

Lemma integer_part_digits ds s :
  forallb is_digit ds = true ->
  Pattern.integer_part (ds ++ s) =
    let '(g, r) := Pattern.integer_part s in (ds ++ g, r).
Proof.
  intros H. induction ds as [|c ds IH].
  - simpl. now destruct (Pattern.integer_part s).
  - cbn [forallb] in H. apply andb_true_iff in H. destruct H as [Hc H].
    rewrite <- app_comm_cons, (integer_part_cons_digit _ _ Hc), (IH H).
    now destruct (Pattern.integer_part s).
Qed.

Lemma integer_part_stop tail :
  no_group tail = true -> Pattern.integer_part tail = ([], tail).
Proof.
  destruct tail as [|c r]; [reflexivity|].
  cbn [no_group Pattern.integer_part].
  intros H. apply andb_true_iff in H. destruct H as [Hc H].
  apply negb_true_iff in Hc. rewrite Hc.
  destruct (c =? full_stop)%N; [|reflexivity].
  destruct r as [|d r]; [reflexivity|].
  simpl in H. apply negb_true_iff in H. now rewrite H.
Qed.

Lemma dotted_cons g gs : dotted (g :: gs) = full_stop :: g ++ dotted gs.
Proof. reflexivity. Qed.

Lemma integer_part_dotted gs tail :
  forallb number_run gs = true -> no_group tail = true ->
  Pattern.integer_part (dotted gs ++ tail) = (dotted gs, tail).
Proof.
  intros Hgs Htail. induction gs as [|g gs IH].
  - now apply integer_part_stop.
  - cbn [forallb] in Hgs. apply andb_true_iff in Hgs. destruct Hgs as [Hg Hgs].
    destruct (number_run_cons _ Hg) as (c & ds & -> & Hc & Hds).
    rewrite dotted_cons, <- !app_comm_cons, <- app_assoc.
    rewrite (integer_part_cons_dot _ _ Hc), (integer_part_cons_digit _ _ Hc).
    rewrite (integer_part_digits _ _ Hds), (IH Hgs). reflexivity.
Qed.

(** The integer part of a number is scanned whole. *)
Lemma integer_part_groups groups tail :
  groups <> [] -> forallb number_run groups = true -> no_group tail = true ->
  Pattern.integer_part (join_groups groups ++ tail)
  = (join_groups groups, tail).
Proof.
  destruct groups as [|g gs]; [congruence|]. intros _ H Htail.
  cbn [forallb] in H. apply andb_true_iff in H. destruct H as [Hg Hgs].
  destruct (number_run_cons _ Hg) as (c & ds & -> & Hc & Hds).
  cbn [join_groups]. rewrite <- app_assoc.
  rewrite integer_part_digits by (cbn [forallb]; now rewrite Hc).
  change (Pattern.integer_part
            (concat (List.map (cons full_stop) gs) ++ tail))
    with (Pattern.integer_part (dotted gs ++ tail)).
  rewrite (integer_part_dotted _ _ Hgs Htail). reflexivity.
Qed.

(** Conversely, what the scan takes is digits and dotted groups, and what it
    leaves starts no further group. *)
Lemma integer_part_split s :
  forall g r, Pattern.integer_part s = (g, r) ->
  s = g ++ r /\ no_group r = true
  /\ exists d0 gs, g = d0 ++ dotted gs
       /\ forallb is_digit d0 = true /\ forallb number_run gs = true
       /\ (forall c s', s = c :: s' -> is_digit c = true -> d0 <> []).
Proof.
  assert (Hnone : forall s : str,
             (forall c s', s = c :: s' -> is_digit c = true -> False) ->
             exists d0 gs, @nil N = d0 ++ dotted gs
               /\ forallb is_digit d0 = true /\ forallb number_run gs = true
               /\ (forall c s', s = c :: s' -> is_digit c = true -> d0 <> [])).
  { intros s0 H0. exists [], []. split; [reflexivity|].
    split; [reflexivity|]. split; [reflexivity|].
    intros c s' E Hc. destruct (H0 _ _ E Hc). }
  induction s as [|c s IH]; intros g r H.
  - inversion H; subst. split; [reflexivity|]. split; [reflexivity|].
    apply Hnone. discriminate.
  - cbn [Pattern.integer_part] in H.
    destruct (is_digit c) eqn:Hc.
    + destruct (Pattern.integer_part s) as [g' r'] eqn:E.
      inversion H; subst.
      destruct (IH _ _ eq_refl) as (-> & Hr & d0 & gs & -> & Hd0 & Hgs & _).
      split; [reflexivity|]. split; [exact Hr|].
      exists (c :: d0), gs. cbn [forallb]. rewrite Hc, Hd0.
      split; [reflexivity|]. split; [reflexivity|]. split; [exact Hgs|].
      discriminate.
    + assert (Hhead : forall c0 s', c :: s = c0 :: s' ->
                                    is_digit c0 = true -> False).
      { intros c0 s' E Hc0. inversion E; subst. congruence. }
      destruct (c =? full_stop)%N eqn:Hdot.
      * apply N.eqb_eq in Hdot. subst c.
        destruct s as [|d s'].
        { inversion H; subst. split; [reflexivity|]. split; [reflexivity|].
          now apply Hnone. }
        destruct (is_digit d) eqn:Hd.
        { destruct (Pattern.integer_part (d :: s')) as [g' r'] eqn:E.
          inversion H; subst.
          destruct (IH _ _ eq_refl)
            as (E' & Hr & d0 & gs & -> & Hd0 & Hgs & Hne).
          split; [now rewrite E'|]. split; [exact Hr|].
          exists [], (d0 :: gs). rewrite dotted_cons.
          split; [reflexivity|]. split; [reflexivity|].
          split; [|intros c0 s0 E0 Hc0; destruct (Hhead _ _ E0 Hc0)].
          cbn [forallb]. rewrite Hgs, andb_true_r.
          specialize (Hne _ _ eq_refl Hd).
          destruct d0; [congruence|]. exact Hd0. }
        inversion H; subst. split; [reflexivity|]. split.
        { cbn [no_group]. rewrite is_digit_full_stop, Hd. reflexivity. }
        now apply Hnone.
      * inversion H; subst. split; [reflexivity|]. split.
        { cbn [no_group]. rewrite Hc, Hdot. reflexivity. }
        now apply Hnone.
Qed.

Lemma fraction_part_some f rest :
  number_run f = true ->
  match rest with [] => true | c :: _ => negb (is_digit c) end = true ->
  Pattern.fraction_part (comma :: f ++ rest) = (f, rest).
Proof.
  intros Hf Hrest. cbn [Pattern.fraction_part]. rewrite N.eqb_refl.
  destruct (number_run_cons _ Hf) as (c & ds & -> & Hc & Hds).
  rewrite digits_app;
    [reflexivity | cbn [forallb]; now rewrite Hc, Hds | exact Hrest].
Qed.

Lemma fraction_part_none tail :
  match tail with
  | c :: d :: _ => negb ((c =? comma)%N && is_digit d)
  | _ => true
  end = true ->
  Pattern.fraction_part tail = ([], tail).
Proof.
  destruct tail as [|c [|d r]]; cbn [Pattern.fraction_part]; intros H.
  - reflexivity.
  - now destruct (c =? comma)%N.
  - destruct (c =? comma)%N; [|reflexivity]. simpl in H.
    apply negb_true_iff in H. cbn [Pattern.digits]. now rewrite H.
Qed.

Lemma fraction_part_split s g2 r2 :
  Pattern.fraction_part s = (g2, r2) ->
  (g2 = [] /\ r2 = s
   /\ match s with
      | c :: d :: _ => negb ((c =? comma)%N && is_digit d)
      | _ => true
      end = true)
  \/ (number_run g2 = true /\ s = comma :: g2 ++ r2
      /\ match r2 with [] => true | c :: _ => negb (is_digit c) end = true).
Proof.
  destruct s as [|c s]; cbn [Pattern.fraction_part]; intros H.
  - inversion H; subst. left. split; [reflexivity|]. split; reflexivity.
  - destruct (c =? comma)%N eqn:Hc.
    + apply N.eqb_eq in Hc. subst c.
      destruct (Pattern.digits s) as [ds r] eqn:E.
      destruct (digits_split _ _ _ E) as (-> & Hds & Hr).
      destruct ds as [|d ds].
      * inversion H; subst. left. split; [reflexivity|]. split; [reflexivity|].
        cbn [app]. destruct r as [|d r]; [reflexivity|].
        exact Hr.
      * inversion H; subst. right. split; [exact Hds|]. split; [reflexivity|].
        exact Hr.
    + inversion H; subst. left. split; [reflexivity|]. split; [reflexivity|].
      destruct s; reflexivity.
Qed.

(** *** The first match of [findall] *)

Lemma findall_nil text : has_digit text = false -> Pattern.findall text = [].
Proof.
  intros H. apply search_nil in H. unfold Pattern.findall.
  destruct (length text); cbn [Pattern.findall_fuel]; [reflexivity|].
  now rewrite H.
Qed.

Lemma findall_first text c s1 g1 r1 g2 r2 :
  Pattern.search text = c :: s1 ->
  Pattern.integer_part (c :: s1) = (g1, r1) ->
  Pattern.fraction_part r1 = (g2, r2) ->
  exists more, Pattern.findall text = (g1, g2) :: more.
Proof.
  intros Hs Hi Hf. unfold Pattern.findall.
  destruct text as [|a text]; [discriminate|].
  cbn [length Pattern.findall_fuel]. rewrite Hs, Hi, Hf. eauto.
Qed.

(** *** The digit runs of an integer part *)

Lemma dotted_length gs :
  forallb number_run gs = true -> (length gs <= length (dotted gs))%nat.
Proof.
  induction gs as [|g gs IH]; [reflexivity|].
  cbn [forallb]. intros H. apply andb_true_iff in H. destruct H as [_ H].
  rewrite dotted_cons. cbn [length]. rewrite length_app.
  specialize (IH H). lia.
Qed.

Lemma dotted_head gs :
  match dotted gs with [] => true | c :: _ => negb (is_digit c) end = true.
Proof. destruct gs; reflexivity. Qed.

Lemma findall_digits_dotted gs :
  forall fuel, forallb number_run gs = true -> (length gs <= fuel)%nat ->
  Pattern.findall_digits_fuel fuel (dotted gs) = gs.
Proof.
  induction gs as [|g gs IH]; intros fuel Hgs Hfuel.
  - destruct fuel; reflexivity.
  - cbn [forallb] in Hgs. apply andb_true_iff in Hgs. destruct Hgs as [Hg Hgs].
    destruct fuel as [|fuel]; [simpl in Hfuel; lia|].
    destruct (number_run_cons _ Hg) as (c & ds & -> & Hc & Hds).
    rewrite dotted_cons. cbn [Pattern.findall_digits_fuel].
    change (Pattern.search (full_stop :: (c :: ds) ++ dotted gs))
      with (Pattern.search ([full_stop] ++ (c :: ds) ++ dotted gs)).
    rewrite search_app by reflexivity.
    rewrite <- app_comm_cons, (search_digit _ _ Hc), app_comm_cons.
    rewrite digits_app;
      [| cbn [forallb]; now rewrite Hc, Hds | apply dotted_head].
    rewrite IH; [reflexivity | exact Hgs | simpl in Hfuel; lia].
Qed.

Lemma findall_digits_join groups :
  groups <> [] -> forallb number_run groups = true ->
  Pattern.findall_digits (join_groups groups) = groups.
Proof.
  destruct groups as [|g gs]; [congruence|]. intros _ H.
  cbn [forallb] in H. apply andb_true_iff in H. destruct H as [Hg Hgs].
  destruct (number_run_cons _ Hg) as (c & ds & -> & Hc & Hds).
  unfold Pattern.findall_digits. cbn [join_groups].
  change (concat (List.map (cons full_stop) gs)) with (dotted gs).
  rewrite length_app. cbn [length Nat.add Pattern.findall_digits_fuel].
  rewrite <- app_comm_cons, (search_digit _ _ Hc), app_comm_cons.
  rewrite digits_app;
    [| cbn [forallb]; now rewrite Hc, Hds | apply dotted_head].
  rewrite findall_digits_dotted; [reflexivity | exact Hgs |].
  pose proof (dotted_length _ Hgs). lia.
Qed.

(** *** What [_extract_price] returns *)

Lemma stops_no_group frac rest :
  stops frac rest = true -> no_group (fraction_text frac ++ rest) = true.
Proof.
  destruct frac as [f|]; [reflexivity|].
  destruct rest as [|c r]; [reflexivity|].
  cbn [fraction_text app stops no_group]. intros H.
  apply andb_true_iff in H. destruct H as [-> H]. cbn [andb].
  destruct (c =? full_stop)%N; [|reflexivity].
  cbn [orb andb] in *. exact H.
Qed.

Lemma stops_fraction frac rest :
  match frac with Some f => number_run f = true | None => True end ->
  stops frac rest = true ->
  Pattern.fraction_part (fraction_text frac ++ rest)
  = (match frac with Some f => f | None => [] end, rest).
Proof.
  intros Hf H. destruct frac as [f|]; cbn [fraction_text app].
  - apply fraction_part_some; [exact Hf|].
    destruct rest as [|c r]; [reflexivity|].
    cbn [stops] in H. now rewrite andb_true_r in H.
  - apply fraction_part_none.
    destruct rest as [|c [|d r]]; try reflexivity.
    cbn [stops] in H. apply andb_true_iff in H. destruct H as [_ H].
    destruct (c =? comma)%N; [|reflexivity].
    rewrite orb_true_r in H. exact H.
Qed.

(** A fragment read as its first number is parsed to the value of that
    number in the scraper's locale. *)
Lemma extract_price_first_number text pre groups frac rest :
  first_number text pre groups frac rest ->
  _extract_price text = Return (locale_value groups frac).
Proof.
  intros (-> & Hpre & Hne & Hgs & Hf & Hstop).
  assert (Hhead : exists c s1,
             join_groups groups ++ fraction_text frac ++ rest = c :: s1
             /\ is_digit c = true).
  { destruct groups as [|g gs]; [congruence|].
    cbn [forallb] in Hgs. apply andb_true_iff in Hgs. destruct Hgs as [Hg _].
    destruct (number_run_cons _ Hg) as (c & ds & -> & Hc & _).
    cbn [join_groups]. rewrite <- !app_comm_cons. eauto. }
  destruct Hhead as (c & s1 & E & Hc).
  destruct (findall_first
              (pre ++ join_groups groups ++ fraction_text frac ++ rest)
              c s1 (join_groups groups) (fraction_text frac ++ rest)
              (match frac with Some f => f | None => [] end) rest)
    as [more Hfind].
  - rewrite search_app by exact Hpre. rewrite E. now apply search_digit.
  - rewrite <- E. apply integer_part_groups; auto using stops_no_group.
  - now apply stops_fraction.
  - unfold _extract_price. rewrite Hfind.
    rewrite findall_digits_join by assumption.
    unfold locale_value. destruct frac as [f|]; [|reflexivity].
    destruct f; [discriminate Hf | reflexivity].
Qed.

(** Every fragment with a digit reads as a first number. *)
Lemma first_number_exists text :
  has_digit text = true ->
  exists pre groups frac rest, first_number text pre groups frac rest.
Proof.
  intros Hd. destruct (search_split text) as (pre & E & Hpre).
  destruct (Pattern.search text) as [|c s1] eqn:Hs.
  { apply search_nil in Hs. congruence. }
  pose proof (search_head _ _ _ Hs) as Hc.
  destruct (Pattern.integer_part (c :: s1)) as [g r] eqn:Hi.
  destruct (integer_part_split _ _ _ Hi)
    as (Eg & Hr & d0 & gs & -> & Hd0 & Hgs & Hne).
  specialize (Hne _ _ eq_refl Hc).
  assert (Hrun : number_run d0 = true) by (destruct d0; [congruence | exact Hd0]).
  destruct (Pattern.fraction_part r) as [g2 r2] eqn:Hf.
  destruct (fraction_part_split _ _ _ Hf) as [(-> & -> & Hn)|(Hg2 & -> & Hr2)].
  - exists pre, (d0 :: gs), None, r. unfold first_number.
    split; [rewrite E, Eg; reflexivity|]. split; [exact Hpre|].
    split; [discriminate|]. split; [cbn [forallb]; now rewrite Hrun, Hgs|].
    split; [exact I|].
    destruct r as [|a [|b r]]; cbn [stops no_group] in *; try reflexivity.
    + apply andb_true_iff in Hr. destruct Hr as [-> _].
      now rewrite andb_false_r.
    + apply andb_true_iff in Hr. destruct Hr as [-> Hr]. cbn [andb].
      destruct (a =? full_stop)%N, (a =? comma)%N; cbn [orb andb] in *;
        auto.
  - exists pre, (d0 :: gs), (Some g2), r2. unfold first_number.
    split; [rewrite E, Eg; cbn [join_groups fraction_text];
            now rewrite <- !app_assoc|].
    split; [exact Hpre|].
    split; [discriminate|]. split; [cbn [forallb]; now rewrite Hrun, Hgs|].
    split; [exact Hg2|].
    destruct r2 as [|a r2]; [reflexivity|]. cbn [stops].
    now rewrite andb_true_r.
Qed.

Lemma extract_price_no_digit text :
  has_digit text = false ->
  _extract_price text
  = Raise (Exception (py "no price found in '" ++ text ++ py "'")).
Proof.
  intros H. unfold _extract_price. now rewrite (findall_nil _ H).
Qed.

Lemma extract_price_total text :
  has_digit text = true -> exists v, _extract_price text = Return v.
Proof.
  intros H. destruct (first_number_exists _ H) as (pre & gs & fr & rest & Hn).
  eauto using extract_price_first_number.
Qed.

(** *** The fuel of [findall] is enough *)

Lemma search_length s : (length (Pattern.search s) <= length s)%nat.
Proof.
  destruct (search_split s) as (pre & E & _).
  rewrite E at 2. rewrite length_app. lia.
Qed.

Lemma digits_length s ds r :
  Pattern.digits s = (ds, r) -> length s = (length ds + length r)%nat.
Proof.
  intros H. destruct (digits_split _ _ _ H) as (-> & _ & _).
  apply length_app.
Qed.

(** A match that starts at a digit consumes it. *)
Lemma match_shorter c s1 g1 r1 g2 r2 :
  is_digit c = true ->
  Pattern.integer_part (c :: s1) = (g1, r1) ->
  Pattern.fraction_part r1 = (g2, r2) ->
  (length r2 < length (c :: s1))%nat.
Proof.
  intros Hc Hi Hf.
  destruct (integer_part_split _ _ _ Hi)
    as (E & _ & d0 & gs & -> & _ & _ & Hne).
  specialize (Hne _ _ eq_refl Hc).
  assert (Hr1 : (length r1 < length (c :: s1))%nat).
  { rewrite E, !length_app. destruct d0; [congruence|]. cbn [length]. lia. }
  destruct (fraction_part_split _ _ _ Hf) as [(_ & -> & _)|(_ & -> & _)].
  - exact Hr1.
  - cbn [length] in *. rewrite length_app in Hr1. lia.
Qed.

Lemma findall_fuel_enough n : forall m s,
  (length s <= n)%nat -> (length s <= m)%nat ->
  Pattern.findall_fuel n s = Pattern.findall_fuel m s.
Proof.
  induction n as [|n IH]; intros m s Hn Hm.
  - destruct s; [|cbn [length] in Hn; lia]. now destruct m.
  - destruct m as [|m].
    { destruct s; [reflexivity | cbn [length] in Hm; lia]. }
    cbn [Pattern.findall_fuel].
    destruct (Pattern.search s) as [|c s1] eqn:Hs; [reflexivity|].
    destruct (Pattern.integer_part (c :: s1)) as [g1 r1] eqn:Hi.
    destruct (Pattern.fraction_part r1) as [g2 r2] eqn:Hf.
    pose proof (match_shorter _ _ _ _ _ _ (search_head _ _ _ Hs) Hi Hf).
    pose proof (search_length s) as Hl. rewrite Hs in Hl.
    f_equal. apply IH; lia.
Qed.

(** More fuel than the length of the text finds no further match. *)
Lemma findall_enough n s :
  (length s <= n)%nat -> Pattern.findall_fuel n s = Pattern.findall s.
Proof. intros H. now apply findall_fuel_enough. Qed.

Lemma findall_digits_fuel_enough n : forall m s,
  (length s <= n)%nat -> (length s <= m)%nat ->
  Pattern.findall_digits_fuel n s = Pattern.findall_digits_fuel m s.
Proof.
  induction n as [|n IH]; intros m s Hn Hm.
  - destruct s; [|cbn [length] in Hn; lia]. now destruct m.
  - destruct m as [|m].
    { destruct s; [reflexivity | cbn [length] in Hm; lia]. }
    cbn [Pattern.findall_digits_fuel].
    destruct (Pattern.search s) as [|c s1] eqn:Hs; [reflexivity|].
    destruct (Pattern.digits (c :: s1)) as [ds r] eqn:Hd.
    pose proof (digits_length _ _ _ Hd) as Hlen.
    pose proof (search_head _ _ _ Hs) as Hc.
    cbn [Pattern.digits] in Hd. rewrite Hc in Hd.
    destruct (Pattern.digits s1) as [ds' r'] eqn:Hd1.
    inversion Hd; subst.
    pose proof (search_length s) as Hl. rewrite Hs in Hl.
    cbn [length] in *. f_equal. apply IH; lia.
Qed.

Lemma findall_digits_enough n s :
  (length s <= n)%nat ->
  Pattern.findall_digits_fuel n s = Pattern.findall_digits s.
Proof. intros H. now apply findall_digits_fuel_enough. Qed.

(** *** The loop of [_extract_prices] *)

Lemma bind_Return {A B} (m : result A) (f : A -> result B) b :
  (m ≫= f) = Return b -> exists a, m = Return a /\ f a = Return b.
Proof. destruct m as [a|e]; [eauto | discriminate]. Qed.

Lemma bind_ret_l {A B} (a : A) (f : A -> result B) : (Return a ≫= f) = f a.
Proof. reflexivity. Qed.

Lemma loop_app fr tags1 tags2 :
  Listing.loop fr (tags1 ++ tags2)
  = Listing.loop fr tags1 ≫= fun fr' => Listing.loop fr' tags2.
Proof.
  revert fr. induction tags1 as [|t tags1 IH]; intros fr; [reflexivity|].
  cbn [app Listing.loop].
  destruct (Listing.body fr t) as [fr'|e]; [apply IH | reflexivity].
Qed.

Lemma deref_all pre h :
  Listing.deref (pre ++ h) (seq (length pre) (length h)) = h.
Proof.
  revert pre. induction h as [|p h IH]; intros pre; [reflexivity|].
  unfold Listing.deref in *. cbn [length seq omap list_omap].
  rewrite list_lookup_middle by reflexivity. f_equal.
  specialize (IH (pre ++ [p])).
  rewrite <- app_assoc, length_app in IH. cbn [length app] in IH.
  now rewrite Nat.add_1_r in IH.
Qed.

Lemma deref_inv fr :
  frame_inv fr ->
  Listing.deref (Listing.heap fr) (Listing.prices fr) = Listing.heap fr.
Proof. intros [-> _]. apply (deref_all []). Qed.

(** One turn of the loop on a fragment that holds a base price. *)
Lemma body_price fr pt v :
  is_shipping pt = false -> _extract_price pt = Return v ->
  Listing.body fr pt
  = Return {| Listing.heap := Listing.heap fr ++ [new_Price v];
              Listing.prices := Listing.prices fr ++ [length (Listing.heap fr)];
              Listing.last := Some (length (Listing.heap fr));
              Listing.trace :=
                Listing.trace fr
                ++ [Listing.New (length (Listing.heap fr)) v] |}.
Proof.
  unfold is_shipping, Listing.body. intros -> ->. reflexivity.
Qed.

(** One turn of the loop on a shipping annotation. *)
Lemma body_shipping fr pt v :
  is_shipping pt = true -> _extract_price pt = Return v ->
  Listing.body fr pt
  = match Listing.last fr with
    | None =>
        Raise (AttributeError
                 (py "'NoneType' object has no attribute 'shipping'"))
    | Some r =>
        Return {| Listing.heap := alter (set_shipping v) r (Listing.heap fr);
                  Listing.prices := Listing.prices fr;
                  Listing.last := Listing.last fr;
                  Listing.trace :=
                    Listing.trace fr ++ [Listing.SetShipping r v] |}
    end.
Proof.
  unfold is_shipping, Listing.body. intros -> ->. reflexivity.
Qed.

Lemma body_raise fr pt e :
  _extract_price pt = Raise e -> Listing.body fr pt = Raise e.
Proof.
  unfold Listing.body. intros ->. now destruct (startswith pt (py "+")).
Qed.

(** What a successful turn does, by the kind of the fragment. *)
Lemma body_Return fr pt fr' :
  Listing.body fr pt = Return fr' ->
  exists v, _extract_price pt = Return v
    /\ if is_shipping pt then
         exists r, Listing.last fr = Some r
           /\ fr' = {| Listing.heap :=
                         alter (set_shipping v) r (Listing.heap fr);
                       Listing.prices := Listing.prices fr;
                       Listing.last := Listing.last fr;
                       Listing.trace :=
                         Listing.trace fr ++ [Listing.SetShipping r v] |}
       else
         fr' = {| Listing.heap := Listing.heap fr ++ [new_Price v];
                  Listing.prices :=
                    Listing.prices fr ++ [length (Listing.heap fr)];
                  Listing.last := Some (length (Listing.heap fr));
                  Listing.trace :=
                    Listing.trace fr
                    ++ [Listing.New (length (Listing.heap fr)) v] |}.
Proof.
  intros H. destruct (_extract_price pt) as [v|e] eqn:Hv.
  - exists v. split; [reflexivity|].
    destruct (is_shipping pt) eqn:Hs.
    + rewrite (body_shipping _ _ _ Hs Hv) in H.
      destruct (Listing.last fr) as [r|]; [|discriminate].
      exists r. split; [reflexivity|]. now inversion H.
    + rewrite (body_price _ _ _ Hs Hv) in H. now inversion H.
  - rewrite (body_raise _ _ _ Hv) in H. discriminate.
Qed.

Lemma body_inv fr pt fr' :
  frame_inv fr -> Listing.body fr pt = Return fr' -> frame_inv fr'.
Proof.
  intros [Hp Hl] H. destruct (body_Return _ _ _ H) as (v & _ & Hk).
  destruct (is_shipping pt).
  - destruct Hk as (r & Hr & ->). unfold frame_inv.
    cbn [Listing.heap Listing.prices Listing.last].
    rewrite length_alter. auto.
  - subst fr'. unfold frame_inv.
    cbn [Listing.heap Listing.prices Listing.last].
    rewrite length_app, Nat.add_1_r, seq_S, Hp. auto.
Qed.

Lemma loop_inv tags : forall fr fr',
  frame_inv fr -> Listing.loop fr tags = Return fr' -> frame_inv fr'.
Proof.
  induction tags as [|t tags IH]; intros fr fr' Hinv H.
  - now inversion H; subst.
  - cbn [Listing.loop] in H. apply bind_Return in H.
    destruct H as (fr1 & H1 & H). eauto using body_inv.
Qed.

Lemma init_inv : frame_inv Listing.init.
Proof. split; reflexivity. Qed.

Lemma run_inv tags fr : Listing.run tags = Return fr -> frame_inv fr.
Proof. apply loop_inv, init_inv. Qed.

(** The list the function returns is the heap of the final frame. *)
Lemma extract_prices_run tags :
  _extract_prices tags
  = Listing.run tags ≫= fun fr => Return (Listing.heap fr).
Proof.
  unfold _extract_prices. destruct (Listing.run tags) as [fr|e] eqn:H;
    [|reflexivity].
  rewrite bind_ret_l. unfold mret, result_ret.
  now rewrite (deref_inv _ (run_inv _ _ H)).
Qed.

Lemma extract_prices_Return tags ps :
  _extract_prices tags = Return ps <->
  exists fr, Listing.run tags = Return fr /\ Listing.heap fr = ps.
Proof.
  rewrite extract_prices_run. split.
  - intros H. apply bind_Return in H. destruct H as (fr & H1 & H2).
    exists fr. split; [exact H1 | now inversion H2].
  - intros (fr & -> & <-). reflexivity.
Qed.

Lemma run_snoc tags pt :
  Listing.run (tags ++ [pt])
  = Listing.run tags ≫= fun fr => Listing.body fr pt.
Proof.
  unfold Listing.run. rewrite loop_app.
  destruct (Listing.loop Listing.init tags) as [fr|e]; [|reflexivity].
  rewrite !bind_ret_l. cbn [Listing.loop].
  now destruct (Listing.body fr pt).
Qed.

(** A fragment that holds a base price appends a new [Price]. *)
Lemma extract_prices_snoc_price tags pt ps v :
  _extract_prices tags = Return ps ->
  is_shipping pt = false -> _extract_price pt = Return v ->
  _extract_prices (tags ++ [pt]) = Return (ps ++ [new_Price v]).
Proof.
  intros H Hs Hv. apply extract_prices_Return in H.
  destruct H as (fr & Hrun & <-).
  apply extract_prices_Return. rewrite run_snoc, Hrun, bind_ret_l.
  rewrite (body_price _ _ _ Hs Hv). eauto.
Qed.

(** A shipping annotation patches the newest [Price]. *)
Lemma extract_prices_snoc_shipping tags pt ps p v :
  _extract_prices tags = Return (ps ++ [p]) ->
  is_shipping pt = true -> _extract_price pt = Return v ->
  _extract_prices (tags ++ [pt]) = Return (ps ++ [set_shipping v p]).
Proof.
  intros H Hs Hv. apply extract_prices_Return in H.
  destruct H as (fr & Hrun & Hheap).
  apply extract_prices_Return. rewrite run_snoc, Hrun, bind_ret_l.
  rewrite (body_shipping _ _ _ Hs Hv).
  destruct (run_inv _ _ Hrun) as [_ Hl]. rewrite Hl, Hheap, length_app.
  cbn [length]. rewrite Nat.add_1_r.
  eexists. split; [reflexivity|]. cbn [Listing.heap].
  rewrite alter_app_r_alt by lia. now rewrite Nat.sub_diag.
Qed.

(** A shipping annotation with no [Price] before it. *)
Lemma extract_prices_snoc_orphan tags pt v :
  _extract_prices tags = Return [] ->
  is_shipping pt = true -> _extract_price pt = Return v ->
  _extract_prices (tags ++ [pt])
  = Raise (AttributeError
             (py "'NoneType' object has no attribute 'shipping'")).
Proof.
  intros H Hs Hv. apply extract_prices_Return in H.
  destruct H as (fr & Hrun & Hheap).
  rewrite extract_prices_run, run_snoc, Hrun, bind_ret_l.
  rewrite (body_shipping _ _ _ Hs Hv).
  destruct (run_inv _ _ Hrun) as [_ Hl]. now rewrite Hl, Hheap.
Qed.

Lemma extract_prices_raise tags pt rest ps e :
  _extract_prices tags = Return ps -> _extract_price pt = Raise e ->
  _extract_prices (tags ++ pt :: rest) = Raise e.
Proof.
  intros H He. apply extract_prices_Return in H.
  destruct H as (fr & Hrun & _).
  rewrite extract_prices_run. unfold Listing.run in *.
  rewrite loop_app, Hrun, bind_ret_l. cbn [Listing.loop].
  now rewrite (body_raise _ _ _ He).
Qed.

(** *** Attribute stores of the loop *)

Lemma stores_to_app r tr1 tr2 :
  Listing.stores_to r (tr1 ++ tr2)
  = (Listing.stores_to r tr1 + Listing.stores_to r tr2)%nat.
Proof. unfold Listing.stores_to. now rewrite List.filter_app, length_app. Qed.

Lemma stores_to_New r r' v tr :
  Listing.stores_to r (tr ++ [Listing.New r' v]) = Listing.stores_to r tr.
Proof. rewrite stores_to_app. cbn. lia. Qed.

Lemma stores_to_Set r r' v tr :
  Listing.stores_to r (tr ++ [Listing.SetShipping r' v])
  = (Listing.stores_to r tr + if Nat.eqb r r' then 1 else 0)%nat.
Proof.
  rewrite stores_to_app. unfold Listing.stores_to at 2. cbn.
  now destruct (Nat.eqb r r').
Qed.

Lemma stores_to_fresh fr r :
  trace_inv fr -> (length (Listing.heap fr) <= r)%nat ->
  Listing.stores_to r (Listing.trace fr) = 0%nat.
Proof.
  intros H Hr. unfold Listing.stores_to. red in H.
  induction H as [|ev tr Hev _ IH]; [reflexivity|].
  cbn [List.filter]. destruct ev as [r' v|r' v]; [exact IH|].
  cbn [event_ref] in Hev.
  destruct (Nat.eqb_spec r r'); [lia | exact IH].
Qed.

Lemma body_trace_inv fr pt fr' :
  frame_inv fr -> trace_inv fr -> Listing.body fr pt = Return fr' ->
  trace_inv fr'.
Proof.
  intros [_ Hl] Hb H. destruct (body_Return _ _ _ H) as (v & _ & Hk).
  unfold trace_inv in *. destruct (is_shipping pt).
  - destruct Hk as (r & Hr & ->). cbn [Listing.heap Listing.trace].
    rewrite length_alter. apply Forall_app. split; [exact Hb|].
    constructor; [|constructor]. cbn [event_ref]. rewrite Hl in Hr.
    destruct (length (Listing.heap fr)); [discriminate|].
    inversion Hr; subst. lia.
  - subst fr'. cbn [Listing.heap Listing.trace].
    rewrite length_app. cbn [length]. apply Forall_app. split.
    + eapply Forall_impl; [exact Hb|]. cbn beta. intros; lia.
    + constructor; [|constructor]. cbn [event_ref]. lia.
Qed.

Lemma loop_trace_inv tags : forall fr fr',
  frame_inv fr -> trace_inv fr -> Listing.loop fr tags = Return fr' ->
  trace_inv fr'.
Proof.
  induction tags as [|t tags IH]; intros fr fr' Hi Ht H.
  - now inversion H; subst.
  - cbn [Listing.loop] in H. apply bind_Return in H.
    destruct H as (fr1 & H1 & H).
    eauto using body_inv, body_trace_inv.
Qed.

Lemma init_trace_inv : trace_inv Listing.init.
Proof. constructor. Qed.

(** The heap holds one object for each fragment that creates a [Price]. *)
Lemma loop_heap_length tags : forall fr fr',
  Listing.loop fr tags = Return fr' ->
  length (Listing.heap fr')
  = (length (Listing.heap fr) + length (price_fragments tags))%nat.
Proof.
  induction tags as [|t tags IH]; intros fr fr' H.
  - inversion H; subst. cbn. lia.
  - cbn [Listing.loop] in H. apply bind_Return in H.
    destruct H as (fr1 & H1 & H). rewrite (IH _ _ H).
    destruct (body_Return _ _ _ H1) as (v & _ & Hk).
    unfold price_fragments. cbn [List.filter].
    destruct (is_shipping t).
    + destruct Hk as (r & _ & ->). cbn. rewrite length_alter. reflexivity.
    + subst fr1. cbn. rewrite length_app. cbn. lia.
Qed.

(** An object that is no longer the newest is not stored into. *)
Lemma loop_stores_old tags : forall fr fr' r,
  frame_inv fr -> Listing.loop fr tags = Return fr' ->
  (S r < length (Listing.heap fr))%nat ->
  Listing.stores_to r (Listing.trace fr')
  = Listing.stores_to r (Listing.trace fr).
Proof.
  induction tags as [|t tags IH]; intros fr fr' r Hi H Hr.
  - now inversion H; subst.
  - cbn [Listing.loop] in H. apply bind_Return in H.
    destruct H as (fr1 & H1 & H).
    pose proof (body_inv _ _ _ Hi H1) as Hi1.
    destruct (body_Return _ _ _ H1) as (v & _ & Hk).
    destruct Hi as [_ Hl].
    destruct (is_shipping t).
    + destruct Hk as (l & Hlast & ->).
      rewrite (IH _ _ r Hi1 H) by (cbn; now rewrite length_alter).
      cbn [Listing.trace]. rewrite stores_to_Set. rewrite Hl in Hlast.
      destruct (length (Listing.heap fr)) as [|n]; [discriminate|].
      inversion Hlast; subst.
      destruct (Nat.eqb_spec r l); lia.
    + subst fr1.
      rewrite (IH _ _ r Hi1 H) by (cbn; rewrite length_app; cbn; lia).
      cbn [Listing.trace]. apply stores_to_New.
Qed.

(** A run of shipping annotations stores once each into the newest
    object. *)
Lemma loop_stores_run pluses : forall fr fr' l,
  Listing.last fr = Some l -> forallb is_shipping pluses = true ->
  Listing.loop fr pluses = Return fr' ->
  Listing.stores_to l (Listing.trace fr')
  = (Listing.stores_to l (Listing.trace fr) + length pluses)%nat
  /\ length (Listing.heap fr') = length (Listing.heap fr).
Proof.
  induction pluses as [|t pluses IH]; intros fr fr' l Hl Hp H.
  - inversion H; subst. cbn. split; [lia | reflexivity].
  - cbn [forallb] in Hp. apply andb_true_iff in Hp. destruct Hp as [Ht Hp].
    cbn [Listing.loop] in H. apply bind_Return in H.
    destruct H as (fr1 & H1 & H).
    destruct (body_Return _ _ _ H1) as (v & _ & Hk). rewrite Ht in Hk.
    destruct Hk as (r & Hr & ->). rewrite Hl in Hr. inversion Hr; subst r.
    destruct (fun Hx => IH _ _ l Hx Hp H) as [E1 E2]; [exact Hl|].
    rewrite E1, E2.
    cbn [Listing.trace Listing.heap length].
    rewrite length_alter, stores_to_Set, Nat.eqb_refl. split; lia.
Qed.

Lemma extract_prices_snoc_inv tags pt ps :
  _extract_prices (tags ++ [pt]) = Return ps ->
  exists ps0 v,
    _extract_prices tags = Return ps0 /\ _extract_price pt = Return v
    /\ if is_shipping pt then
         exists ps1 p, ps0 = ps1 ++ [p] /\ ps = ps1 ++ [set_shipping v p]
       else ps = ps0 ++ [new_Price v].
Proof.
  intros H. apply extract_prices_Return in H. destruct H as (fr & H & <-).
  rewrite run_snoc in H. apply bind_Return in H.
  destruct H as (fr0 & Hrun & Hbody).
  destruct (body_Return _ _ _ Hbody) as (v & Hv & Hk).
  exists (Listing.heap fr0), v.
  split; [apply extract_prices_Return; eauto|]. split; [exact Hv|].
  destruct (is_shipping pt); [|now subst fr].
  destruct Hk as (r & Hr & ->). cbn [Listing.heap].
  destruct (run_inv _ _ Hrun) as [_ Hl]. rewrite Hl in Hr.
  destruct (Listing.heap fr0) as [|q h] eqn:Eh; [discriminate|].
  destruct (@exists_last _ (q :: h)) as (h0 & p0 & E); [discriminate|].
  rewrite E in *. rewrite length_app in Hr. cbn [length] in Hr.
  rewrite Nat.add_1_r in Hr. inversion Hr; subst r.
  exists h0, p0. split; [reflexivity|].
  rewrite alter_app_r_alt by lia. now rewrite Nat.sub_diag.
Qed.

(** The base prices of the result are the values of the fragments that
    create a [Price], in the order of the fragments. *)
Lemma extract_prices_order tags : forall ps,
  _extract_prices tags = Return ps ->
  Forall2 (fun p pt => _extract_price pt = Return (base_price p))
          ps (price_fragments tags).
Proof.
  induction tags as [|pt tags IH] using rev_ind; intros ps H.
  - apply extract_prices_Return in H. destruct H as (fr & Hr & <-).
    inversion Hr; subst. constructor.
  - destruct (extract_prices_snoc_inv _ _ _ H) as (ps0 & v & H0 & Hv & Hk).
    specialize (IH _ H0). unfold price_fragments in *.
    rewrite List.filter_app. cbn [List.filter].
    destruct (is_shipping pt); cbn [negb].
    + destruct Hk as (ps1 & p & -> & ->). rewrite app_nil_r.
      apply Forall2_app_inv_l in IH.
      destruct IH as (k1 & k2 & Hk1 & Hk2 & ->).
      apply Forall2_app; [exact Hk1|].
      inversion Hk2 as [|? ? ? ? Hp Hnil]; subst.
      inversion Hnil; subst. constructor; [exact Hp | constructor].
    + subst ps. apply Forall2_app; [exact IH|].
      constructor; [exact Hv | constructor].
Qed.

Lemma loop_base_preserved tags : forall fr fr' r p,
  Listing.loop fr tags = Return fr' -> Listing.heap fr !! r = Some p ->
  exists p', Listing.heap fr' !! r = Some p' /\ base_price p' = base_price p.
Proof.
  induction tags as [|t tags IH]; intros fr fr' r p H Hp.
  - inversion H; subst. eauto.
  - cbn [Listing.loop] in H. apply bind_Return in H.
    destruct H as (fr1 & H1 & H).
    destruct (body_Return _ _ _ H1) as (v & _ & Hk).
    assert (H' : exists p1, Listing.heap fr1 !! r = Some p1
                            /\ base_price p1 = base_price p).
    { destruct (is_shipping t).
      - destruct Hk as (l & _ & ->). cbn [Listing.heap].
        destruct (Nat.eq_dec l r) as [->|Hne].
        + rewrite list_lookup_alter_eq, Hp. simpl. eauto.
        + rewrite list_lookup_alter_ne by exact Hne. eauto.
      - subst fr1. cbn [Listing.heap].
        rewrite (lookup_app_l_Some _ _ _ _ Hp). eauto. }
    destruct H' as (p1 & Hp1 & E1).
    destruct (IH _ _ _ _ H Hp1) as (p' & Hp' & E'). exists p'.
    split; [exact Hp' | congruence].
Qed.

(** Without two shipping annotations in a row, no object is stored into
    twice. *)
Lemma loop_at_most_once tags : forall fr fr',
  frame_inv fr -> trace_inv fr ->
  (forall r, (Listing.stores_to r (Listing.trace fr) <= 1)%nat) ->
  (starts_price tags = false ->
   forall l, Listing.last fr = Some l ->
             Listing.stores_to l (Listing.trace fr) = 0%nat) ->
  no_adjacent_shipping tags = true ->
  Listing.loop fr tags = Return fr' ->
  forall r, (Listing.stores_to r (Listing.trace fr') <= 1)%nat.
Proof.
  induction tags as [|t tags IH]; intros fr fr' Hi Ht Hle Hlast Hadj H.
  - now inversion H; subst.
  - cbn [Listing.loop] in H. apply bind_Return in H.
    destruct H as (fr1 & H1 & H).
    cbn [no_adjacent_shipping] in Hadj. apply andb_true_iff in Hadj.
    destruct Hadj as [Hadj1 Hadj].
    pose proof (body_inv _ _ _ Hi H1) as Hi1.
    pose proof (body_trace_inv _ _ _ Hi Ht H1) as Ht1.
    destruct (body_Return _ _ _ H1) as (v & _ & Hk).
    apply (IH fr1 fr' Hi1 Ht1); [| |exact Hadj|exact H].
    + intros r. destruct (is_shipping t) eqn:Hs.
      * destruct Hk as (l & Hl & ->). cbn [Listing.trace].
        rewrite stores_to_Set. destruct (Nat.eqb_spec r l) as [->|_].
        -- rewrite (Hlast (f_equal negb Hs) _ Hl). lia.
        -- specialize (Hle r). lia.
      * subst fr1. cbn [Listing.trace]. rewrite stores_to_New. apply Hle.
    + intros Hstart l Hl. destruct (is_shipping t) eqn:Hs.
      * destruct tags as [|t' tags']; [discriminate|].
        cbn [starts_price] in Hstart. apply negb_false_iff in Hstart.
        rewrite Hstart in Hadj1. discriminate.
      * subst fr1. cbn [Listing.last Listing.trace] in *.
        inversion Hl; subst l. rewrite stores_to_New.
        apply stores_to_fresh; [exact Ht | lia].
Qed.

(** The object a fragment creates is stored into once for each shipping
    annotation that follows the fragment directly. *)
Lemma run_stores_block before pt pluses after fr :
  Listing.run (before ++ pt :: pluses ++ after) = Return fr ->
  is_shipping pt = false -> forallb is_shipping pluses = true ->
  starts_price after = true ->
  Listing.stores_to (length (price_fragments before)) (Listing.trace fr)
  = length pluses
  /\ exists p, Listing.heap fr !! length (price_fragments before) = Some p
       /\ _extract_price pt = Return (base_price p).
Proof.
  intros H Hpt Hpl Hafter. unfold Listing.run in H.
  rewrite loop_app in H. apply bind_Return in H.
  destruct H as (fr0 & H0 & H).
  cbn [Listing.loop] in H. apply bind_Return in H.
  destruct H as (fr1 & H1 & H).
  rewrite loop_app in H. apply bind_Return in H.
  destruct H as (fr2 & H2 & H).
  pose proof (loop_inv _ _ _ init_inv H0) as Hi0.
  pose proof (loop_trace_inv _ _ _ init_inv init_trace_inv H0) as Ht0.
  pose proof (loop_heap_length _ _ _ H0) as Hlen. cbn in Hlen.
  rewrite <- Hlen. set (r := length (Listing.heap fr0)) in *.
  pose proof (body_inv _ _ _ Hi0 H1) as Hi1.
  destruct (body_Return _ _ _ H1) as (v & Hv & Hk). rewrite Hpt in Hk.
  assert (Hs1 : Listing.stores_to r (Listing.trace fr1) = 0%nat).
  { subst fr1. cbn [Listing.trace]. rewrite stores_to_New.
    apply stores_to_fresh; [exact Ht0 | subst r; lia]. }
  assert (Hl1 : Listing.last fr1 = Some r) by now subst fr1.
  assert (Hp1 : Listing.heap fr1 !! r = Some (new_Price v)).
  { subst fr1. cbn [Listing.heap]. now apply list_lookup_middle. }
  assert (Hn1 : length (Listing.heap fr1) = S r).
  { subst fr1. cbn [Listing.heap]. rewrite length_app. cbn [length].
    subst r. lia. }
  destruct (loop_stores_run _ _ _ _ Hl1 Hpl H2) as [Hs2 Hn2].
  pose proof (loop_inv _ _ _ Hi1 H2) as Hi2.
  split.
  - rewrite Hs1 in Hs2. cbn [Nat.add] in Hs2. rewrite <- Hs2.
    destruct after as [|t after]; [now inversion H; subst|].
    cbn [starts_price] in Hafter. apply negb_true_iff in Hafter.
    cbn [Listing.loop] in H. apply bind_Return in H.
    destruct H as (fr3 & H3 & H).
    pose proof (body_inv _ _ _ Hi2 H3) as Hi3.
    destruct (body_Return _ _ _ H3) as (v3 & _ & Hk3). rewrite Hafter in Hk3.
    rewrite (loop_stores_old _ _ _ r Hi3 H).
    + subst fr3. cbn [Listing.trace]. apply stores_to_New.
    + subst fr3. cbn [Listing.heap]. rewrite length_app. cbn [length]. lia.
  - destruct (loop_base_preserved _ _ _ _ _ H2 Hp1) as (p2 & Hp2 & E2).
    destruct (loop_base_preserved _ _ _ _ _ H Hp2) as (p3 & Hp3 & E3).
    exists p3. split; [exact Hp3|]. rewrite E3, E2. exact Hv.
Qed.

(** *** Comparisons of floats *)

Lemma leb_trans x y z :
  (x <=? y)%float = true -> (y <=? z)%float = true -> (x <=? z)%float = true.
Proof. rewrite !leb_spec. apply SFleb_trans. Qed.

Lemma ltb_leb x y : (x <? y)%float = true -> (x <=? y)%float = true.
Proof. rewrite ltb_spec, leb_spec. apply SFltb_SFleb. Qed.

Lemma ltb_false_leb x y :
  not_nan x -> not_nan y ->
  (x <? y)%float = false -> (y <=? x)%float = true.
Proof. rewrite ltb_spec, leb_spec. apply SFltb_false_SFleb. Qed.

Lemma leb_refl x : not_nan x -> (x <=? x)%float = true.
Proof. rewrite leb_spec. apply SFleb_refl. Qed.

Lemma SFsub_nan_r a : SF64sub a S754_nan = S754_nan.
Proof. now destruct a. Qed.

(** A price that passes the filter has a total that is a number. *)
Lemma within_not_nan d avg p : within d avg p = true -> not_nan (total p).
Proof.
  unfold within, not_nan. rewrite ltb_spec, abs_spec, sub_spec.
  intros H E. rewrite E, SFsub_nan_r in H. discriminate.
Qed.

(** *** [min] and [max] *)

Lemma fold_min_spec rest : forall m,
  not_nan m -> Forall not_nan rest ->
  let r := fold_left (fun m y => if (y <? m)%float then y else m) rest m in
  In r (m :: rest) /\ not_nan r /\ (r <=? m)%float = true
  /\ Forall (fun y => (r <=? y)%float = true) rest.
Proof.
  induction rest as [|y rest IH]; intros m Hm Hrest; cbn [fold_left].
  - split; [now left|]. split; [exact Hm|]. split; [now apply leb_refl|].
    constructor.
  - inversion Hrest as [|? ? Hy Hrest']; subst.
    destruct (y <? m)%float eqn:Hlt.
    + destruct (IH y Hy Hrest') as (Hin & Hn & Hle & Hall).
      split; [destruct Hin as [<-|Hin]; [right; now left | right; now right]|].
      split; [exact Hn|].
      split; [eapply leb_trans; [exact Hle | now apply ltb_leb]|].
      constructor; assumption.
    + destruct (IH m Hm Hrest') as (Hin & Hn & Hle & Hall).
      split; [destruct Hin as [<-|Hin]; [now left | right; now right]|].
      split; [exact Hn|]. split; [exact Hle|].
      constructor; [|exact Hall].
      eapply leb_trans; [exact Hle | now apply ltb_false_leb].
Qed.

Lemma fold_max_spec rest : forall m,
  not_nan m -> Forall not_nan rest ->
  let r := fold_left (fun m y => if (m <? y)%float then y else m) rest m in
  In r (m :: rest) /\ not_nan r /\ (m <=? r)%float = true
  /\ Forall (fun y => (y <=? r)%float = true) rest.
Proof.
  induction rest as [|y rest IH]; intros m Hm Hrest; cbn [fold_left].
  - split; [now left|]. split; [exact Hm|]. split; [now apply leb_refl|].
    constructor.
  - inversion Hrest as [|? ? Hy Hrest']; subst.
    destruct (m <? y)%float eqn:Hlt.
    + destruct (IH y Hy Hrest') as (Hin & Hn & Hle & Hall).
      split; [destruct Hin as [<-|Hin]; [right; now left | right; now right]|].
      split; [exact Hn|].
      split; [eapply leb_trans; [apply ltb_leb; exact Hlt | exact Hle]|].
      constructor; assumption.
    + destruct (IH m Hm Hrest') as (Hin & Hn & Hle & Hall).
      split; [destruct Hin as [<-|Hin]; [now left | right; now right]|].
      split; [exact Hn|]. split; [exact Hle|].
      constructor; [|exact Hall].
      eapply leb_trans; [apply ltb_false_leb; [exact Hm | exact Hy | exact Hlt] | exact Hle].
Qed.

Lemma py_min_spec xs :
  xs <> [] -> Forall not_nan xs ->
  exists lo, py_min xs = Return lo /\ In lo xs
             /\ Forall (fun t => (lo <=? t)%float = true) xs.
Proof.
  destruct xs as [|x rest]; [congruence|]. intros _ H.
  inversion H as [|? ? Hx Hrest]; subst.
  destruct (fold_min_spec rest x Hx Hrest) as (Hin & _ & Hle & Hall).
  eexists. split; [reflexivity|]. split; [exact Hin|].
  constructor; assumption.
Qed.

Lemma py_max_spec xs :
  xs <> [] -> Forall not_nan xs ->
  exists hi, py_max xs = Return hi /\ In hi xs
             /\ Forall (fun t => (t <=? hi)%float = true) xs.
Proof.
  destruct xs as [|x rest]; [congruence|]. intros _ H.
  inversion H as [|? ? Hx Hrest]; subst.
  destruct (fold_max_spec rest x Hx Hrest) as (Hin & _ & Hle & Hall).
  eexists. split; [reflexivity|]. split; [exact Hin|].
  constructor; assumption.
Qed.

(** *** [remove_outliers] *)

Lemma remove_outliers_eq self d :
  remove_outliers self d = Return (outliers_removed d (prices self)).
Proof.
  unfold remove_outliers, outliers_removed, mean.
  rewrite length_map. destruct (prices self) as [|p ps]; reflexivity.
Qed.

Lemma outliers_removed_not_nan d ps :
  Forall not_nan (List.map total (outliers_removed d ps)).
Proof.
  unfold outliers_removed. apply List.Forall_forall. intros t Ht.
  apply in_map_iff in Ht. destruct Ht as (p & <- & Hp).
  apply filter_In in Hp. destruct Hp as [_ Hp].
  eapply within_not_nan; exact Hp.
Qed.

Lemma fold_nil f default : _fold [] f default = Return default.
Proof. reflexivity. Qed.

Lemma fold_cons p ps f default :
  _fold (p :: ps) f default = f (List.map total (p :: ps)).
Proof. reflexivity. Qed.

Lemma cheapest_eq self :
  cheapest self
  = _fold (outliers_removed default_deviation (prices self)) py_min 0%float.
Proof.
  unfold cheapest, cheapest_of, normalised_prices.
  now rewrite remove_outliers_eq.
Qed.

Lemma most_expensive_eq self :
  most_expensive self
  = _fold (outliers_removed default_deviation (prices self)) py_max 0%float.
Proof.
  unfold most_expensive, most_expensive_of, normalised_prices.
  now rewrite remove_outliers_eq.
Qed.

(** The two ends of the range over a non-empty filtered list. *)
Lemma range_spec self kept :
  outliers_removed default_deviation (prices self) = kept -> kept <> [] ->
  exists lo hi,
    cheapest self = Return lo /\ most_expensive self = Return hi
    /\ In lo (List.map total kept) /\ In hi (List.map total kept)
    /\ Forall (fun t => (lo <=? t)%float = true /\ (t <=? hi)%float = true)
              (List.map total kept).
Proof.
  intros E Hne. rewrite cheapest_eq, most_expensive_eq, E.
  pose proof (outliers_removed_not_nan default_deviation (prices self)) as Hn.
  rewrite E in Hn. destruct kept as [|p kept]; [congruence|].
  rewrite !fold_cons.
  destruct (py_min_spec (List.map total (p :: kept))) as (lo & -> & Hlo & Hle);
    [discriminate | exact Hn |].
  destruct (py_max_spec (List.map total (p :: kept))) as (hi & -> & Hhi & Hge);
    [discriminate | exact Hn |].
  exists lo, hi. repeat (split; [first [reflexivity | assumption]|]).
  rewrite List.Forall_forall in *. intros t Ht. split; auto.
Qed.

(** *** Equal totals *)

Lemma is_finite_SF x :
  is_finite x = true ->
  (exists s, Prim2SF x = S754_zero s)
  \/ (exists s m e, Prim2SF x = S754_finite s m e).
Proof.
  unfold is_finite. intros H. apply negb_true_iff, orb_false_iff in H.
  destruct H as [Hnan Hinf]. unfold Prim2SF. rewrite Hnan, Hinf.
  destruct (is_zero x); [left; eauto|].
  destruct (Z.frexp x) as [r e].
  destruct (shr_fexp prec emax _ _ _) as [shr e'].
  destruct (shr_m shr); [left | right | left]; eauto.
Qed.

Lemma SFsub_self s m e :
  SF64sub (S754_finite s m e) (S754_finite s m e) = S754_zero false.
Proof.
  unfold SF64sub, SFsub. rewrite Z.min_id.
  match goal with
  | |- binary_normalize _ _ (?a - ?a)%Z _ _ = _ => replace (a - a)%Z with 0%Z by lia
  end.
  reflexivity.
Qed.

(** [abs(x - x)] is [0.0] for a finite [x]. *)
Lemma abs_sub_self x : is_finite x = true -> abs (x - x) = 0%float.
Proof.
  intros H. apply Prim2SF_inj. rewrite abs_spec, sub_spec.
  destruct (is_finite_SF _ H) as [[s ->]|(s & m & e & ->)].
  - now destruct s.
  - now rewrite SFsub_self.
Qed.

Lemma filter_const {A} (f : A -> bool) b l :
  Forall (fun a => f a = b) l -> List.filter f l = if b then l else [].
Proof.
  induction 1 as [|a l Ha _ IH]; [now destruct b|].
  cbn [List.filter]. rewrite Ha, IH. now destruct b.
Qed.

Lemma outliers_removed_equal d ps x :
  Forall (fun p => total p = x) ps ->
  outliers_removed d ps
  = if (abs (mean (List.map total ps) - x)
        <? d * mean (List.map total ps))%float
    then ps else [].
Proof.
  intros H. unfold outliers_removed. apply filter_const.
  eapply Forall_impl; [exact H|]. cbn beta. intros p <-. reflexivity.
Qed.

(** *** Totals that are all zero *)

(** A float that compares equal to [0] is one of the two zeros. *)
Lemma eqb_zero_SF x :
  (x =? 0)%float = true -> exists s, Prim2SF x = S754_zero s.
Proof.
  rewrite FloatAxioms.eqb_spec. change (Prim2SF 0) with (S754_zero false).
  destruct (Prim2SF x) as [s|[]| |[] m e]; try discriminate. eauto.
Qed.

Lemma fold_add_zeros xs : forall acc,
  (exists s, Prim2SF acc = S754_zero s) ->
  Forall (fun t => exists s, Prim2SF t = S754_zero s) xs ->
  exists s, Prim2SF (fold_left PrimFloat.add xs acc) = S754_zero s.
Proof.
  induction xs as [|t xs IH]; intros acc Hacc H; cbn [fold_left];
    [exact Hacc|].
  inversion H as [|? ? [s' Ht] Hrest]; subst. destruct Hacc as [s Hs].
  apply IH; [|exact Hrest]. rewrite add_spec, Hs, Ht.
  destruct s, s'; cbn; eauto.
Qed.

(** The mean of zeros is a zero, or no number when the divisor is. *)
Lemma SFdiv_zero_l s y :
  match SF64div (S754_zero s) y with
  | S754_zero _ | S754_nan => True
  | _ => False
  end.
Proof. destruct s, y as [[]|[]| |[] m e]; exact I. Qed.

(** Around such a mean no zero total passes the filter, whatever the
    threshold. *)
Lemma SFltb_zero_mean a d s :
  match a with S754_zero _ | S754_nan => True | _ => False end ->
  SFltb (SFabs (SF64sub a (S754_zero s))) (SF64mul d a) = false.
Proof.
  destruct a as [[]|sa| |sa ma ea]; try tauto; intros _;
    destruct s, d as [[]|[]| |[] md ed]; reflexivity.
Qed.

Lemma outliers_removed_zeros d ps x :
  (x =? 0)%float = true -> Forall (fun p => total p = x) ps ->
  outliers_removed d ps = [].
Proof.
  intros Hx H. rewrite (outliers_removed_equal _ _ _ H).
  destruct (eqb_zero_SF _ Hx) as [s Hs].
  assert (Hsum : exists s', Prim2SF (py_sum (List.map total ps))
                            = S754_zero s').
  { unfold py_sum. apply fold_add_zeros; [exists false; reflexivity|].
    apply List.Forall_forall. intros t Ht. apply in_map_iff in Ht.
    destruct Ht as (p & <- & Hp). rewrite List.Forall_forall in H.
    rewrite (H _ Hp). eauto. }
  destruct Hsum as [s' Hsum].
  rewrite ltb_spec, abs_spec, sub_spec, mul_spec, Hs.
  rewrite SFltb_zero_mean; [reflexivity|].
  unfold mean. rewrite div_spec, Hsum. apply SFdiv_zero_l.
Qed.

(** ** The claims *)

(** C1 (as amended).  Price-listing extraction goes through the fragments in
    order: a fragment that does not begin with [+] appends a new [Price]
    whose base price is the parsed value and whose shipping is [0]; a
    fragment that begins with [+] is parsed and stored into the shipping
    field of the newest [Price]; the base prices of the result are the
    values of the price fragments, in their order.  The fragments
    [19,99 €] and [+ 4,99 €] yield exactly one [Price], with base [19.99]
    and shipping [4.99]; its total is the binary64 sum of the two,
    [24.979999999999997]. *)
Theorem extract_prices_listing :
  _extract_prices [] = Return []
  /\ (forall tags pt ps v,
        _extract_prices tags = Return ps ->
        is_shipping pt = false -> _extract_price pt = Return v ->
        _extract_prices (tags ++ [pt])
        = Return (ps ++ [{| base_price := v; shipping := 0 |}]))
  /\ (forall tags pt ps p v,
        _extract_prices tags = Return (ps ++ [p]) ->
        is_shipping pt = true -> _extract_price pt = Return v ->
        _extract_prices (tags ++ [pt])
        = Return (ps ++ [{| base_price := base_price p; shipping := v |}]))
  /\ (forall tags ps,
        _extract_prices tags = Return ps ->
        Forall2 (fun p pt => _extract_price pt = Return (base_price p))
                ps (price_fragments tags))
  /\ (exists p,
        _extract_prices [py "19,99 €"; py "+ 4,99 €"] = Return [p]
        /\ base_price p = literal 1999 2 /\ shipping p = literal 499 2
        /\ total p = literal 24979999999999997 15).
Proof.
  split; [reflexivity|].
  split; [exact extract_prices_snoc_price|].
  split; [exact extract_prices_snoc_shipping|].
  split; [exact extract_prices_order|].
  exists {| base_price := literal 1999 2; shipping := literal 499 2 |}.
  repeat split; vm_compute; reflexivity.
Qed.

Lemma extract_prices_listing_witness :
  _extract_prices ([py "19,99 €"] ++ [py "+ 4,99 €"])
  = Return ([] ++ [{| base_price := base_price (new_Price (literal 1999 2));
                      shipping := literal 499 2 |}]).
Proof.
  apply (proj1 (proj2 (proj2 extract_prices_listing))
           [py "19,99 €"] (py "+ 4,99 €") [] (new_Price (literal 1999 2))
           (literal 499 2));
    vm_compute; reflexivity.
Defined.

(** C1, the claim as stated fails: the total of the one [Price] extracted
    from [19,99 €] and [+ 4,99 €] is not the float [24.98]. *)
Lemma extract_prices_total_not_24_98 :
  exists p,
    _extract_prices [py "19,99 €"; py "+ 4,99 €"] = Return [p]
    /\ (total p =? literal 2498 2)%float = false
    /\ total p <> literal 2498 2.
Proof.
  exists {| base_price := literal 1999 2; shipping := literal 499 2 |}.
  split; [vm_compute; reflexivity|].
  assert (H : (total {| base_price := literal 1999 2;
                        shipping := literal 499 2 |}
               =? literal 2498 2)%float = false)
    by (vm_compute; reflexivity).
  split; [exact H|]. intros E. rewrite E in H. vm_compute in H. discriminate.
Qed.

(** C2.  For every fragment with at least one digit, the parser returns the
    value of the first number of the fragment, read in the locale where the
    full stop groups thousands and the comma separates the fraction, the
    fraction being [0] when absent.  In particular a fragment made of the
    euro sign, digits [int], a comma and digits [frac] is parsed to the
    float [int.frac]. *)
Theorem extract_price_value :
  (forall text,
     has_digit text = true ->
     exists pre groups frac rest,
       first_number text pre groups frac rest
       /\ _extract_price text = Return (locale_value groups frac))
  /\ (forall int frac,
        number_run int = true -> number_run frac = true ->
        _extract_price (euro_sign :: int ++ comma :: frac)
        = Return (float_of_digits int frac)).
Proof.
  split.
  - intros text H.
    destruct (first_number_exists _ H) as (pre & groups & frac & rest & Hn).
    exists pre, groups, frac, rest.
    split; [exact Hn | exact (extract_price_first_number _ _ _ _ _ Hn)].
  - intros int frac Hi Hf.
    rewrite (extract_price_first_number _ [euro_sign] [int] (Some frac) []).
    + unfold locale_value. cbn [concat]. now rewrite app_nil_r.
    + unfold first_number. cbn [join_groups List.map concat fraction_text].
      rewrite !app_nil_r. cbn [forallb]. rewrite Hi.
      repeat split; [discriminate | exact Hf].
Qed.

Lemma extract_price_value_witness :
  _extract_price (euro_sign :: py "19" ++ comma :: py "99")
  = Return (float_of_digits (py "19") (py "99")).
Proof.
  apply (proj2 extract_price_value (py "19") (py "99"));
    vm_compute; reflexivity.
Defined.

(** C3.  For every list of prices and every deviation threshold (0.5 by
    default), [remove_outliers] returns exactly the prices whose total
    deviates from the arithmetic mean of all totals by strictly less than
    the threshold times that mean, in their order; the mean is that of the
    unfiltered list and the filter runs once: applied to its own output it
    can remove further prices. *)
Theorem remove_outliers_single_pass :
  default_deviation = 0.5%float
  /\ (forall self deviation,
        remove_outliers self deviation
        = Return (List.filter
                    (fun p =>
                       (abs (mean (List.map total (prices self)) - total p)
                        <? deviation * mean (List.map total (prices self)))
                       %float)
                    (prices self)))
  /\ (exists self kept,
        remove_outliers self default_deviation = Return kept
        /\ remove_outliers {| info := info self; prices := kept |}
                           default_deviation
           <> Return kept).
Proof.
  split; [reflexivity|]. split; [exact remove_outliers_eq|].
  exists (phone_of_totals [6; 6; 6; 14; 18]%float),
         (List.map new_Price [6; 6; 6; 14]%float).
  split; [vm_compute; reflexivity|].
  intros H.
  apply (f_equal (fun r => match r with
                           | Return l => length l
                           | Raise _ => O
                           end)) in H.
  vm_compute in H. discriminate.
Qed.

(** C4.  For every [Phone], [cheapest] is the least and [most_expensive] the
    greatest total of the outlier-filtered price list; both are [0] when
    the filtered list is empty, in particular for an empty price list. *)
Theorem cheapest_most_expensive_range (self : Phone) :
  exists kept,
    remove_outliers self default_deviation = Return kept
    /\ (kept = [] ->
        cheapest self = Return 0%float
        /\ most_expensive self = Return 0%float)
    /\ (kept <> [] ->
        exists lo hi,
          cheapest self = Return lo /\ most_expensive self = Return hi
          /\ In lo (List.map total kept) /\ In hi (List.map total kept)
          /\ Forall (fun t => (lo <=? t)%float = true
                              /\ (t <=? hi)%float = true)
                    (List.map total kept))
    /\ (prices self = [] ->
        cheapest self = Return 0%float
        /\ most_expensive self = Return 0%float).
Proof.
  exists (outliers_removed default_deviation (prices self)).
  split; [apply remove_outliers_eq|].
  split; [|split].
  - intros E. rewrite cheapest_eq, most_expensive_eq, E. split; reflexivity.
  - intros Hne. now apply range_spec.
  - intros E. rewrite cheapest_eq, most_expensive_eq, E. split; reflexivity.
Qed.

(** C5 (as amended).  For every fragment sequence whose first fragment
    begins with [+], the extraction fails and the fragment is not dropped:
    with the parser's exception when the fragment holds no digit, and
    otherwise with the [AttributeError] of the store into the attribute of
    [None], a null-reference fault. *)
Theorem extract_prices_orphan_shipping (pt : str) (rest : list str) :
  is_shipping pt = true ->
  _extract_prices (pt :: rest)
  = Raise (if has_digit pt
           then AttributeError
                  (py "'NoneType' object has no attribute 'shipping'")
           else Exception (py "no price found in '" ++ pt ++ py "'")).
Proof.
  intros Hs. rewrite extract_prices_run. unfold Listing.run.
  cbn [Listing.loop]. destruct (has_digit pt) eqn:Hd.
  - destruct (extract_price_total _ Hd) as [v Hv].
    now rewrite (body_shipping _ _ _ Hs Hv).
  - now rewrite (body_raise _ _ _ (extract_price_no_digit _ Hd)).
Qed.

Lemma extract_prices_orphan_shipping_witness :
  _extract_prices (py "+ Versand" :: [py "19,99 €"])
  = Raise (if has_digit (py "+ Versand")
           then AttributeError
                  (py "'NoneType' object has no attribute 'shipping'")
           else Exception
                  (py "no price found in '" ++ py "+ Versand" ++ py "'")).
Proof.
  apply (extract_prices_orphan_shipping (py "+ Versand") [py "19,99 €"]).
  vm_compute; reflexivity.
Defined.

(** C5, the claim as stated fails: on the single fragment [+ 4,99 €] the
    extraction ends in a null-reference fault. *)
Lemma orphan_shipping_null_reference :
  is_shipping (py "+ 4,99 €") = true
  /\ exists e, _extract_prices [py "+ 4,99 €"] = Raise e
               /\ null_reference_fault e = true.
Proof.
  split; [vm_compute; reflexivity|].
  eexists. split; vm_compute; reflexivity.
Qed.

(** C6.  For every fragment without a digit, the parser raises the exception
    whose message names the fragment, and [_extract_prices] lets it through:
    the extraction of a sequence fails with this exception at the first
    such fragment it reaches. *)
Theorem extract_price_no_digit_raises (text : str) :
  has_digit text = false ->
  _extract_price text
  = Raise (Exception (py "no price found in '" ++ text ++ py "'"))
  /\ forall before after ps,
       _extract_prices before = Return ps ->
       _extract_prices (before ++ text :: after)
       = Raise (Exception (py "no price found in '" ++ text ++ py "'")).
Proof.
  intros H. pose proof (extract_price_no_digit _ H) as E.
  split; [exact E|]. intros before after ps Hb.
  exact (extract_prices_raise _ _ _ _ _ Hb E).
Qed.

Lemma extract_price_no_digit_raises_witness :
  _extract_prices ([py "19,99 €"] ++ py "gratis €" :: [py "5 €"])
  = Raise (Exception (py "no price found in '" ++ py "gratis €" ++ py "'")).
Proof.
  apply (proj2 (extract_price_no_digit_raises (py "gratis €")
                  ltac:(vm_compute; reflexivity))
           [py "19,99 €"] [py "5 €"]
           [{| base_price := literal 1999 2; shipping := 0 |}]).
  vm_compute; reflexivity.
Defined.

(** C7 (as amended).  For every non-empty price list whose totals all equal
    [x] and every threshold, [remove_outliers] returns the whole list or
    the empty list: the whole list exactly when the deviation of [x] from
    the computed mean is strictly below the threshold times that mean.  So
    it returns the whole list when the computed mean is [x], [x] is finite
    and the threshold times [x] is strictly positive, and the empty list,
    for every threshold, when [x] is zero. *)
Theorem remove_outliers_equal_totals (self : Phone) (deviation x : float) :
  prices self <> [] ->
  Forall (fun p => total p = x) (prices self) ->
  remove_outliers self deviation
  = Return (if (abs (mean (List.map total (prices self)) - x)
                <? deviation * mean (List.map total (prices self)))%float
            then prices self else [])
  /\ (remove_outliers self deviation = Return (prices self)
      <-> (abs (mean (List.map total (prices self)) - x)
           <? deviation * mean (List.map total (prices self)))%float = true)
  /\ (mean (List.map total (prices self)) = x ->
      is_finite x = true -> (0 <? deviation * x)%float = true ->
      remove_outliers self deviation = Return (prices self))
  /\ ((x =? 0)%float = true -> remove_outliers self deviation = Return []).
Proof.
  intros Hne H. rewrite remove_outliers_eq.
  split; [now rewrite (outliers_removed_equal _ _ _ H)|].
  split; [|split].
  - rewrite (outliers_removed_equal _ _ _ H).
    destruct (abs (mean (List.map total (prices self)) - x)
              <? deviation * mean (List.map total (prices self)))%float.
    + split; reflexivity.
    + split; [|discriminate]. intros E. inversion E. congruence.
  - intros Hm Hfin Hpos. rewrite (outliers_removed_equal _ _ _ H), Hm.
    now rewrite (abs_sub_self _ Hfin), Hpos.
  - intros Hx. now rewrite (outliers_removed_zeros _ _ _ Hx H).
Qed.

Lemma remove_outliers_equal_totals_witness :
  remove_outliers (phone_of_totals [10; 10; 10]%float) default_deviation
  = Return (prices (phone_of_totals [10; 10; 10]%float))
  /\ remove_outliers (phone_of_totals [0; 0]%float) 2%float = Return [].
Proof.
  split.
  - apply (proj1 (proj2 (proj2 (remove_outliers_equal_totals
                    (phone_of_totals [10; 10; 10]%float) default_deviation
                    10%float
                    ltac:(discriminate)
                    ltac:(repeat constructor)))));
      vm_compute; reflexivity.
  - apply (proj2 (proj2 (proj2 (remove_outliers_equal_totals
                    (phone_of_totals [0; 0]%float) 2%float 0%float
                    ltac:(discriminate)
                    ltac:(repeat constructor)))));
      vm_compute; reflexivity.
Defined.

(** C7, the claim as stated fails, in two ways.  The one-element list of
    total [0] has zero variance and the default threshold is positive, yet
    the list is emptied.  And three totals [0.1] have a computed mean of
    [0.10000000000000002], so that the positive threshold [1e-17] empties
    the list as well. *)
Lemma equal_totals_removed :
  (prices (phone_of_totals [0%float]) <> []
   /\ Forall (fun p => total p = 0%float)
             (prices (phone_of_totals [0%float]))
   /\ (0 <? default_deviation)%float = true
   /\ remove_outliers (phone_of_totals [0%float]) default_deviation
      = Return []
   /\ remove_outliers (phone_of_totals [0%float]) default_deviation
      <> Return (prices (phone_of_totals [0%float])))
  /\ (prices (phone_of_totals [literal 1 1; literal 1 1; literal 1 1]) <> []
      /\ Forall (fun p => total p = literal 1 1)
                (prices (phone_of_totals
                           [literal 1 1; literal 1 1; literal 1 1]))
      /\ (0 <? literal 1 1)%float = true
      /\ (0 <? literal 1 17)%float = true
      /\ mean (List.map total
                 (prices (phone_of_totals
                            [literal 1 1; literal 1 1; literal 1 1])))
         = literal 10000000000000002 17
      /\ remove_outliers
           (phone_of_totals [literal 1 1; literal 1 1; literal 1 1])
           (literal 1 17)
         = Return []
      /\ remove_outliers
           (phone_of_totals [literal 1 1; literal 1 1; literal 1 1])
           (literal 1 17)
         <> Return (prices (phone_of_totals
                              [literal 1 1; literal 1 1; literal 1 1]))).
Proof.
  assert (Hlen : forall (a b : result (list Price)),
             match a with Return l => length l | Raise _ => O end
             <> match b with Return l => length l | Raise _ => O end ->
             a <> b) by (intros a b Hab E; apply Hab; now rewrite E).
  split.
  - split; [discriminate|]. split; [repeat constructor|].
    split; [vm_compute; reflexivity|]. split; [vm_compute; reflexivity|].
    apply Hlen. vm_compute. discriminate.
  - split; [discriminate|].
    split; [repeat constructor; vm_compute; reflexivity|].
    split; [vm_compute; reflexivity|]. split; [vm_compute; reflexivity|].
    split; [vm_compute; reflexivity|]. split; [vm_compute; reflexivity|].
    apply Hlen. vm_compute. discriminate.
Qed.

(** C8 (as amended).  During the extraction of any fragment sequence, the
    shipping field of the [Price] a fragment creates is stored into once
    for each [+] fragment that follows that fragment directly, and the
    [Price] keeps the base price parsed from its fragment; so no [Price] is
    stored into more than once when no two [+] fragments are adjacent. *)
Theorem shipping_stores_per_price (tags : list str) (fr : Listing.frame) :
  Listing.run tags = Return fr ->
  (no_adjacent_shipping tags = true ->
   forall r, (Listing.stores_to r (Listing.trace fr) <= 1)%nat)
  /\ (forall before pt pluses after,
        tags = before ++ pt :: pluses ++ after ->
        is_shipping pt = false -> forallb is_shipping pluses = true ->
        starts_price after = true ->
        Listing.stores_to (length (price_fragments before))
                          (Listing.trace fr)
        = length pluses
        /\ exists p,
             Listing.heap fr !! length (price_fragments before) = Some p
             /\ _extract_price pt = Return (base_price p)).
Proof.
  intros H. split.
  - intros Hadj.
    apply (loop_at_most_once tags Listing.init fr init_inv init_trace_inv);
      [intros r; cbn; lia | discriminate | exact Hadj | exact H].
  - intros before pt pluses after -> Hpt Hpl Hafter.
    now apply (run_stores_block before pt pluses after fr).
Qed.

Lemma shipping_stores_per_price_witness :
  (Listing.stores_to 0
     [Listing.New 0 (literal 1999 2); Listing.SetShipping 0 (literal 499 2);
      Listing.New 1 (literal 5 0)] <= 1)%nat
  /\ Listing.stores_to (length (price_fragments []))
       [Listing.New 0 (literal 1999 2); Listing.SetShipping 0 (literal 499 2);
        Listing.New 1 (literal 5 0)]
     = length [py "+ 4,99 €"].
Proof.
  pose proof (shipping_stores_per_price
                [py "19,99 €"; py "+ 4,99 €"; py "5 €"]
                {| Listing.heap :=
                     [{| base_price := literal 1999 2;
                         shipping := literal 499 2 |};
                      {| base_price := literal 5 0; shipping := 0 |}];
                   Listing.prices := [0; 1]%nat;
                   Listing.last := Some 1%nat;
                   Listing.trace :=
                     [Listing.New 0 (literal 1999 2);
                      Listing.SetShipping 0 (literal 499 2);
                      Listing.New 1 (literal 5 0)] |}
                ltac:(vm_compute; reflexivity)) as [Honce Hblock].
  split.
  - apply Honce. vm_compute; reflexivity.
  - apply (Hblock [] (py "19,99 €") [py "+ 4,99 €"] [py "5 €"]);
      vm_compute; reflexivity.
Defined.

(** C8, the claim as stated fails: two [+] fragments in a row store twice
    into the shipping field of the same [Price]. *)
Lemma shipping_stored_twice :
  exists fr,
    Listing.run [py "10 €"; py "+ 1 €"; py "+ 2 €"] = Return fr
    /\ Listing.stores_to 0 (Listing.trace fr) = 2%nat.
Proof. eexists. split; vm_compute; reflexivity. Qed.

(** C9.  For the empty price list [remove_outliers] returns the empty list
    without computing the mean, whose division by the length [0] would
    raise; and for no price list does it raise. *)
Theorem remove_outliers_empty :
  (forall i deviation,
     remove_outliers {| info := i; prices := [] |} deviation = Return [])
  /\ truediv (py_sum (List.map total [])) (length (@nil Price))
     = Raise (ZeroDivisionError (py "float division by zero"))
  /\ (forall self deviation,
        exists kept, remove_outliers self deviation = Return kept).
Proof.
  split; [reflexivity|]. split; [reflexivity|].
  intros self d. rewrite remove_outliers_eq. eauto.
Qed.

(** C10.  For every [Phone], with any price list, [cheapest] is less than
    or equal to [most_expensive]. *)
Theorem cheapest_le_most_expensive (self : Phone) :
  exists lo hi,
    cheapest self = Return lo /\ most_expensive self = Return hi
    /\ (lo <=? hi)%float = true.
Proof.
  destruct (outliers_removed default_deviation (prices self))
    as [|p kept] eqn:E.
  - exists 0%float, 0%float. rewrite cheapest_eq, most_expensive_eq, E.
    repeat split.
  - destruct (range_spec self (p :: kept) E)
      as (lo & hi & Hlo & Hhi & _ & _ & Hall); [discriminate|].
    exists lo, hi. split; [exact Hlo|]. split; [exact Hhi|].
    inversion Hall as [|? ? [Hl Hh] _]; subst.
    exact (leb_trans _ _ _ Hl Hh).
Qed.

(** * Further code and properties *)

(** ** Floats: signs through rounding *)

Section Rounding.

#[local] Open Scope Z_scope.

Lemma shr_1_nonneg mrs : 0 <= shr_m mrs -> 0 <= shr_m (shr_1 mrs).
Proof.
  destruct mrs as [m r s]. cbn [shr_m shr_1].
  destruct m as [|[p|p|]|[p|p|]]; cbn [shr_m]; lia.
Qed.

Lemma iter_shr_1_nonneg p : forall mrs,
  0 <= shr_m mrs -> 0 <= shr_m (SpecFloat.iter_pos shr_1 p mrs).
Proof.
  induction p as [p IH|p IH|]; intros mrs H; cbn [SpecFloat.iter_pos].
  - apply IH, IH, shr_1_nonneg, H.
  - apply IH, IH, H.
  - apply shr_1_nonneg, H.
Qed.

Lemma shr_fexp_nonneg m e l :
  0 <= m -> 0 <= shr_m (fst (shr_fexp prec emax m e l)).
Proof.
  intros H. unfold shr_fexp, shr.
  assert (H0 : 0 <= shr_m (shr_record_of_loc m l))
    by (destruct l as [|[]]; exact H).
  destruct (fexp prec emax (Zdigits2 m + e) - e); cbn [fst]; auto.
  now apply iter_shr_1_nonneg.
Qed.

Lemma round_nearest_even_nonneg m l :
  0 <= m -> 0 <= round_nearest_even m l.
Proof.
  intros H. destruct l as [|[]]; cbn [round_nearest_even]; try lia.
  destruct (Z.even m); lia.
Qed.

(** Rounding a non-negative mantissa gives a zero, a finite number or an
    infinity of the sign it is given, never [nan]. *)
Lemma binary_round_aux_sign sx mx ex lx :
  0 <= mx ->
  match binary_round_aux prec emax sx mx ex lx with
  | S754_zero s | S754_infinity s | S754_finite s _ _ => s = sx
  | S754_nan => False
  end.
Proof.
  intros H. unfold binary_round_aux.
  pose proof (shr_fexp_nonneg mx ex lx H) as H1.
  destruct (shr_fexp prec emax mx ex lx) as [mrs' e'].
  cbn [fst] in H1.
  pose proof (shr_fexp_nonneg _ e' loc_Exact
                (round_nearest_even_nonneg _ (loc_of_shr_record mrs') H1))
    as H2.
  destruct (shr_fexp prec emax _ e' loc_Exact) as [mrs'' e''].
  cbn [fst] in H2.
  destruct (shr_m mrs''); [reflexivity | | lia].
  now destruct (e'' <=? emax - prec).
Qed.

Lemma binary_round_aux_nonneg mx ex lx :
  0 <= mx -> SF_nonneg (binary_round_aux prec emax false mx ex lx).
Proof.
  intros H. pose proof (binary_round_aux_sign false mx ex lx H) as S.
  destruct (binary_round_aux prec emax false mx ex lx); cbn;
    try subst; auto.
Qed.

Lemma binary_round_nonneg m e :
  SF_nonneg (binary_round prec emax false m e).
Proof.
  unfold binary_round. destruct (shl_align _ _ _) as [mz ez].
  apply binary_round_aux_nonneg. lia.
Qed.

Lemma binary_normalize_nonneg z e :
  0 <= z -> SF_nonneg (binary_normalize prec emax z e false).
Proof.
  intros H. destruct z; cbn [binary_normalize];
    [exact I | apply binary_round_nonneg | lia].
Qed.

Lemma SFldexp_nonneg f e : SF_nonneg f -> SF_nonneg (SFldexp prec emax f e).
Proof.
  destruct f as [s|[]| |[] m e']; cbn [SF_nonneg SFldexp]; intros H;
    try contradiction; try exact I.
  apply binary_round_nonneg.
Qed.

Lemma SFdiv_core_nonneg m1 e1 m2 e2 :
  0 <= m1 -> 0 < m2 ->
  0 <= fst (fst (SFdiv_core_binary prec emax m1 e1 m2 e2)).
Proof.
  intros H1 H2. unfold SFdiv_core_binary.
  set (s := e1 - e2 - _).
  set (m' := match s with Z.pos _ => Z.shiftl m1 s | Z0 => m1 | _ => 0 end).
  assert (Hm' : 0 <= m').
  { subst m'. destruct s; try lia. now apply Z.shiftl_nonneg. }
  pose proof (Z.div_pos m' m2 Hm' H2) as Hq.
  unfold Z.div in Hq. destruct (Z.div_eucl m' m2) as [q r].
  exact Hq.
Qed.

Lemma SFdiv_nonneg x m e :
  SF_nonneg x -> SF_nonneg (SFdiv prec emax x (S754_finite false m e)).
Proof.
  destruct x as [[]|[]| |[] mx ex]; cbn [SF_nonneg SFdiv xorb]; intros Hx;
    try contradiction; try exact I.
  pose proof (SFdiv_core_nonneg (Z.pos mx) ex (Z.pos m) e
                ltac:(lia) ltac:(lia)) as H.
  destruct (SFdiv_core_binary _ _ _ _ _ _) as [[mz ez] lz]. cbn [fst] in H.
  now apply binary_round_aux_nonneg.
Qed.

Lemma SFadd_nonneg x y :
  SF_nonneg x -> SF_nonneg y -> SF_nonneg (SF64add x y).
Proof.
  unfold SF64add.
  destruct x as [[]|[]| |[] mx ex], y as [[]|[]| |[] my ey];
    cbn [SF_nonneg SFadd]; intros Hx Hy; try contradiction; try exact I.
  apply binary_normalize_nonneg.
  cbn [cond_Zopp]. lia.
Qed.

End Rounding.

(** *** From [spec_float] back to [float] *)

Lemma Prim2SF_zero : Prim2SF 0 = S754_zero false.
Proof. reflexivity. Qed.

Lemma Prim2SF_infinity : Prim2SF infinity = S754_infinity false.
Proof. reflexivity. Qed.

Lemma SF2Prim_nonneg sf : SF_nonneg sf -> SF_nonneg (Prim2SF (SF2Prim sf)).
Proof.
  destruct sf as [[]|[]| |[] m e]; cbn [SF_nonneg]; try tauto; intros _;
    try exact I.
  cbn [SF2Prim]. rewrite Z_ldexp_spec, of_uint63_spec.
  apply SFldexp_nonneg, binary_normalize_nonneg.
  apply Uint63.to_Z_bounded.
Qed.

Lemma nonneg_SF x : nonneg x <-> SF_nonneg (Prim2SF x).
Proof.
  unfold nonneg. rewrite leb_spec, Prim2SF_zero.
  destruct (Prim2SF x) as [[]|[]| |[] m e]; cbn; split; congruence || tauto.
Qed.

Lemma of_decimal_nonneg n k : (0 <= n)%Z -> nonneg (PyFloat.of_decimal n k).
Proof.
  intros H. apply nonneg_SF. unfold PyFloat.of_decimal.
  apply SF2Prim_nonneg.
  assert (Hp : exists p, (10 ^ Z.of_nat k)%Z = Z.pos p).
  { pose proof (Z.pow_pos_nonneg 10 (Z.of_nat k) ltac:(lia) ltac:(lia)).
    destruct (10 ^ Z.of_nat k)%Z as [|p|p]; try lia. eauto. }
  destruct Hp as [p ->]. cbn [PyFloat.Z2SF].
  apply SFdiv_nonneg. destruct n; [exact I | exact I | lia].
Qed.

Lemma add_nonneg x y : nonneg x -> nonneg y -> nonneg (x + y).
Proof. rewrite !nonneg_SF, add_spec. apply SFadd_nonneg. Qed.

Lemma nonneg_0 : nonneg 0.
Proof. reflexivity. Qed.

(** ** The parser returns no negative number *)

Lemma digit_value_nonneg c : (0 <= digit_value c)%Z.
Proof. unfold digit_value. destruct (decimal c); lia. Qed.

Lemma int_of_digits_nonneg s : (0 <= int_of_digits s)%Z.
Proof.
  unfold int_of_digits.
  assert (H : forall acc, (0 <= acc)%Z ->
            (0 <= fold_left (fun acc c => 10 * acc + digit_value c) s acc)%Z).
  { induction s as [|c s IH]; intros acc Hacc; cbn [fold_left]; [exact Hacc|].
    apply IH. pose proof (digit_value_nonneg c). lia. }
  apply H. lia.
Qed.

Lemma extract_price_nonneg text v :
  _extract_price text = Return v -> nonneg v.
Proof.
  unfold _extract_price. destruct (Pattern.findall text) as [|[g1 g2] more];
    [discriminate|].
  intros H. inversion H; subst. unfold float_of_digits.
  apply of_decimal_nonneg, int_of_digits_nonneg.
Qed.

(** ** The prices of an extraction are not negative *)

Lemma body_nonneg fr pt fr' :
  Forall Price_nonneg (Listing.heap fr) -> Listing.body fr pt = Return fr' ->
  Forall Price_nonneg (Listing.heap fr').
Proof.
  intros Hh H. destruct (body_Return _ _ _ H) as (v & Hv & Hk).
  pose proof (extract_price_nonneg _ _ Hv) as Hn.
  destruct (is_shipping pt).
  - destruct Hk as (r & _ & ->). cbn [Listing.heap].
    apply Forall_alter; [exact Hh|]. intros p _ [Hb _]. split; assumption.
  - subst fr'. cbn [Listing.heap]. apply Forall_app. split; [exact Hh|].
    constructor; [|constructor]. split; [exact Hn | exact nonneg_0].
Qed.

Lemma loop_nonneg tags : forall fr fr',
  Forall Price_nonneg (Listing.heap fr) -> Listing.loop fr tags = Return fr' ->
  Forall Price_nonneg (Listing.heap fr').
Proof.
  induction tags as [|t tags IH]; intros fr fr' Hh H.
  - now inversion H; subst.
  - cbn [Listing.loop] in H. apply bind_Return in H.
    destruct H as (fr1 & H1 & H). eauto using body_nonneg.
Qed.

Lemma extract_prices_nonneg tags ps :
  _extract_prices tags = Return ps -> Forall Price_nonneg ps.
Proof.
  intros H. apply extract_prices_Return in H. destruct H as (fr & H & <-).
  eapply loop_nonneg; [|exact H]. constructor.
Qed.

Lemma total_nonneg p : Price_nonneg p -> nonneg (total p).
Proof. intros [Hb Hs]. now apply add_nonneg. Qed.

(** ** What passes the filter of [remove_outliers] *)

Lemma SFltb_infinity_l b : SFltb (S754_infinity false) b = false.
Proof. now destruct b as [[]|[]| |[] m e]. Qed.

(** A total that passes the filter is zero or finite. *)
Lemma SFltb_abs_sub_finite a t b :
  SFltb (SFabs (SF64sub a t)) b = true -> SF_finite t.
Proof.
  destruct t as [s|s| |s m e]; cbn [SF_finite]; try tauto.
  - destruct a as [[]|[]| |[] ma ea], s; cbn [SF64sub SFsub SFabs negb];
      first [rewrite SFltb_infinity_l; discriminate | discriminate].
  - rewrite SFsub_nan_r. discriminate.
Qed.

(** The bound of a filter that lets a total pass is strictly positive. *)
Lemma SFltb_abs_pos a b :
  SFltb (SFabs a) b = true -> SFltb (S754_zero false) b = true.
Proof.
  destruct a as [s|s| |s m e], b as [[]|[]| |[] mb eb];
    cbn [SFabs]; try discriminate; try reflexivity.
Qed.

Lemma is_finite_SF_finite x : SF_finite (Prim2SF x) -> is_finite x = true.
Proof.
  unfold is_finite, is_nan, is_infinity.
  rewrite !FloatAxioms.eqb_spec, abs_spec, Prim2SF_infinity.
  destruct (Prim2SF x) as [[]|s| |s m e]; cbn [SF_finite]; try tauto;
    intros _; try reflexivity.
  unfold SFeqb, SFcompare. cbn [SFabs].
  rewrite Z.compare_refl, Pos.compare_cont_refl. now destruct s.
Qed.

Lemma within_finite d avg p : within d avg p = true -> is_finite (total p) = true.
Proof.
  unfold within. rewrite ltb_spec, abs_spec, sub_spec. intros H.
  apply is_finite_SF_finite. eapply SFltb_abs_sub_finite; exact H.
Qed.

Lemma within_bound_pos d avg p :
  within d avg p = true -> (0 <? d * avg)%float = true.
Proof.
  unfold within. rewrite !ltb_spec, abs_spec, Prim2SF_zero.
  apply SFltb_abs_pos.
Qed.

Lemma filter_none {A} (f : A -> bool) l :
  (forall a, In a l -> f a = false) -> List.filter f l = [].
Proof.
  induction l as [|a l IH]; intros H; [reflexivity|].
  cbn [List.filter]. rewrite (H a (or_introl eq_refl)).
  apply IH. intros b Hb. apply H. now right.
Qed.

Lemma outliers_removed_In d ps p :
  In p (outliers_removed d ps) ->
  In p ps /\ within d (mean (List.map total ps)) p = true.
Proof. unfold outliers_removed. apply filter_In. Qed.

(** ** A total that overflowed *)

Lemma SFadd_overflow_l x y : SF_overflow x -> SF_overflow (SF64add x y).
Proof.
  destruct x as [s|[]| |s m e], y as [[]|[]| |[] my ey];
    cbn [SF_overflow]; try tauto; intros _; exact I.
Qed.

Lemma SFadd_infinity_r x s : SF_overflow (SF64add x (S754_infinity s)).
Proof. destruct x as [[]|[]| |[] m e], s; exact I. Qed.

Lemma SFdiv_overflow x y : SF_overflow x -> SF_overflow (SF64div x y).
Proof.
  destruct x as [s|[]| |s m e], y as [[]|[]| |[] my ey];
    cbn [SF_overflow]; try tauto; intros _; exact I.
Qed.

Lemma SFltb_abs_sub_overflow a t b :
  SF_overflow a -> SFltb (SFabs (SF64sub a t)) b = false.
Proof.
  destruct a as [s|s| |s m e]; cbn [SF_overflow]; try tauto; intros _.
  destruct s, t as [[]|[]| |[] mt et]; cbn [SF64sub SFsub SFabs];
    first [apply SFltb_infinity_l | reflexivity].
Qed.

Lemma fold_add_overflow xs : forall acc,
  SF_overflow (Prim2SF acc) ->
  SF_overflow (Prim2SF (fold_left PrimFloat.add xs acc)).
Proof.
  induction xs as [|x xs IH]; intros acc H; [exact H|].
  cbn [fold_left]. apply IH. rewrite add_spec. now apply SFadd_overflow_l.
Qed.

Lemma py_sum_overflow xs :
  In infinity xs -> SF_overflow (Prim2SF (py_sum xs)).
Proof.
  unfold py_sum. generalize 0%float.
  induction xs as [|x xs IH]; intros acc H; [destruct H|].
  cbn [fold_left]. destruct H as [->|H]; [|now apply IH].
  apply fold_add_overflow. rewrite add_spec, Prim2SF_infinity.
  apply SFadd_infinity_r.
Qed.

Lemma within_overflow d avg p :
  SF_overflow (Prim2SF avg) -> within d avg p = false.
Proof.
  intros H. unfold within. rewrite ltb_spec, abs_spec, sub_spec.
  now apply SFltb_abs_sub_overflow.
Qed.

(** ** When the extraction succeeds *)

Lemma extract_price_Return_digit text v :
  _extract_price text = Return v -> has_digit text = true.
Proof.
  intros H. destruct (has_digit text) eqn:Hd; [reflexivity|].
  rewrite (extract_price_no_digit _ Hd) in H. discriminate.
Qed.

Lemma loop_succeeds tags : forall fr,
  forallb has_digit tags = true ->
  starts_price tags = true \/ (exists r, Listing.last fr = Some r) ->
  exists fr', Listing.loop fr tags = Return fr'.
Proof.
  induction tags as [|t tags IH]; intros fr Hd Hs; [now exists fr|].
  cbn [forallb] in Hd. apply andb_true_iff in Hd. destruct Hd as [Ht Hd].
  destruct (extract_price_total _ Ht) as [v Hv].
  cbn [Listing.loop]. destruct (is_shipping t) eqn:Hsh.
  - destruct Hs as [Hs|[r Hr]].
    { cbn [starts_price] in Hs. rewrite Hsh in Hs. discriminate. }
    rewrite (body_shipping _ _ _ Hsh Hv), Hr, bind_ret_l.
    apply IH; [exact Hd|]. right. exists r. reflexivity.
  - rewrite (body_price _ _ _ Hsh Hv), bind_ret_l.
    apply IH; [exact Hd|]. right. eexists. reflexivity.
Qed.

Lemma loop_Return_criterion tags : forall fr fr',
  Listing.loop fr tags = Return fr' ->
  forallb has_digit tags = true
  /\ (starts_price tags = true \/ exists r, Listing.last fr = Some r).
Proof.
  induction tags as [|t tags IH]; intros fr fr' H.
  - split; [reflexivity | now left].
  - cbn [Listing.loop] in H. apply bind_Return in H.
    destruct H as (fr1 & H1 & H). destruct (IH _ _ H) as [Hd _].
    destruct (body_Return _ _ _ H1) as (v & Hv & Hk).
    cbn [forallb starts_price].
    rewrite (extract_price_Return_digit _ _ Hv), Hd.
    split; [reflexivity|]. destruct (is_shipping t).
    + destruct Hk as (r & Hr & _). right. eauto.
    + now left.
Qed.

(** ** The shipping a [Price] ends with *)

(** An object that is no longer the newest keeps its fields. *)
Lemma loop_cell_frozen tags : forall fr fr' r,
  frame_inv fr -> Listing.loop fr tags = Return fr' ->
  (S r < length (Listing.heap fr))%nat ->
  Listing.heap fr' !! r = Listing.heap fr !! r.
Proof.
  induction tags as [|t tags IH]; intros fr fr' r Hi H Hr.
  - now inversion H; subst.
  - cbn [Listing.loop] in H. apply bind_Return in H.
    destruct H as (fr1 & H1 & H).
    pose proof (body_inv _ _ _ Hi H1) as Hi1.
    destruct (body_Return _ _ _ H1) as (v & _ & Hk).
    destruct Hi as [_ Hl].
    destruct (is_shipping t).
    + destruct Hk as (l & Hlast & ->).
      rewrite (IH _ _ r Hi1 H) by (cbn [Listing.heap]; now rewrite length_alter).
      cbn [Listing.heap]. rewrite Hl in Hlast.
      destruct (length (Listing.heap fr)) as [|n]; [discriminate|].
      inversion Hlast; subst. apply list_lookup_alter_ne. lia.
    + subst fr1.
      rewrite (IH _ _ r Hi1 H)
        by (cbn [Listing.heap]; rewrite length_app; cbn [length]; lia).
      cbn [Listing.heap]. apply lookup_app_l. lia.
Qed.

(** After a run of shipping annotations the newest object has the value of
    the last of them. *)
Lemma loop_shipping_cell pluses : forall fr fr' r p,
  Listing.last fr = Some r -> Listing.heap fr !! r = Some p ->
  forallb is_shipping pluses = true ->
  Listing.loop fr pluses = Return fr' ->
  exists p',
    Listing.heap fr' !! r = Some p' /\ base_price p' = base_price p
    /\ match last pluses with
       | None => shipping p' = shipping p
       | Some pt => _extract_price pt = Return (shipping p')
       end.
Proof.
  induction pluses as [|t pluses IH]; intros fr fr' r p Hl Hp Hs H.
  - inversion H; subst. exists p. split; [exact Hp|]. split; reflexivity.
  - cbn [forallb] in Hs. apply andb_true_iff in Hs. destruct Hs as [Ht Hs].
    cbn [Listing.loop] in H. apply bind_Return in H.
    destruct H as (fr1 & H1 & H).
    destruct (body_Return _ _ _ H1) as (v & Hv & Hk). rewrite Ht in Hk.
    destruct Hk as (r' & Hr' & ->). rewrite Hl in Hr'.
    inversion Hr'; subst r'.
    destruct (fun Hx Hy => IH _ fr' r (set_shipping v p) Hx Hy Hs H)
      as (p' & Hp' & Hb & Hlast).
    + exact Hl.
    + cbn [Listing.heap]. rewrite list_lookup_alter_eq, Hp. reflexivity.
    + exists p'. split; [exact Hp'|]. split; [exact Hb|].
      destruct pluses as [|t' pluses'].
      * cbn in Hlast |- *. now rewrite Hlast.
      * change (last (t :: t' :: pluses')) with (last (t' :: pluses')).
        destruct (last (t' :: pluses')) eqn:E; [exact Hlast|].
        apply last_None in E. discriminate.
Qed.

(** The [Price] a fragment creates, in the result. *)
Lemma run_block_cell before pt pluses after fr :
  Listing.run (before ++ pt :: pluses ++ after) = Return fr ->
  is_shipping pt = false -> forallb is_shipping pluses = true ->
  starts_price after = true ->
  exists p,
    Listing.heap fr !! length (price_fragments before) = Some p
    /\ _extract_price pt = Return (base_price p)
    /\ match last pluses with
       | None => shipping p = 0%float
       | Some t => _extract_price t = Return (shipping p)
       end.
Proof.
  intros H Hpt Hpl Hafter. unfold Listing.run in H.
  rewrite loop_app in H. apply bind_Return in H.
  destruct H as (fr0 & H0 & H).
  cbn [Listing.loop] in H. apply bind_Return in H.
  destruct H as (fr1 & H1 & H).
  rewrite loop_app in H. apply bind_Return in H.
  destruct H as (fr2 & H2 & H).
  pose proof (loop_inv _ _ _ init_inv H0) as Hi0.
  pose proof (loop_heap_length _ _ _ H0) as Hlen. cbn in Hlen.
  rewrite <- Hlen. set (r := length (Listing.heap fr0)) in *.
  pose proof (body_inv _ _ _ Hi0 H1) as Hi1.
  destruct (body_Return _ _ _ H1) as (v & Hv & Hk). rewrite Hpt in Hk.
  assert (Hl1 : Listing.last fr1 = Some r) by now subst fr1.
  assert (Hp1 : Listing.heap fr1 !! r = Some (new_Price v)).
  { subst fr1. cbn [Listing.heap]. now apply list_lookup_middle. }
  assert (Hn1 : length (Listing.heap fr1) = S r).
  { subst fr1. cbn [Listing.heap]. rewrite length_app. cbn [length].
    subst r. lia. }
  destruct (loop_shipping_cell _ _ _ _ _ Hl1 Hp1 Hpl H2)
    as (p2 & Hp2 & Hb2 & Hs2).
  destruct (loop_stores_run _ _ _ _ Hl1 Hpl H2) as [_ Hn2].
  pose proof (loop_inv _ _ _ Hi1 H2) as Hi2.
  exists p2. split; [|split; [rewrite Hb2; exact Hv | exact Hs2]].
  destruct after as [|t after]; [now inversion H; subst|].
  cbn [starts_price] in Hafter. apply negb_true_iff in Hafter.
  cbn [Listing.loop] in H. apply bind_Return in H.
  destruct H as (fr3 & H3 & H).
  pose proof (body_inv _ _ _ Hi2 H3) as Hi3.
  destruct (body_Return _ _ _ H3) as (v3 & _ & Hk3). rewrite Hafter in Hk3.
  rewrite (loop_cell_frozen _ _ _ r Hi3 H).
  - subst fr3. cbn [Listing.heap]. now apply lookup_app_l_Some.
  - subst fr3. cbn [Listing.heap]. rewrite length_app. cbn [length]. lia.
Qed.

(** ** The search address *)

Lemma replace_char_not_In old new s :
  old <> new -> ~ In old (replace_char old new s).
Proof.
  intros Hne H. unfold replace_char in H. apply in_map_iff in H.
  destruct H as (c & E & _). destruct (N.eqb_spec c old); congruence.
Qed.

Lemma replace_char_inj old new a : forall b,
  ~ In new a -> ~ In new b ->
  replace_char old new a = replace_char old new b -> a = b.
Proof.
  induction a as [|c a IH]; intros [|d b] Ha Hb H; try discriminate;
    [reflexivity|].
  cbn [replace_char List.map] in H. inversion H as [[Hc Hrest]].
  f_equal.
  - destruct (N.eqb_spec c old), (N.eqb_spec d old); subst; try reflexivity.
    + exfalso. apply Hb. now left.
    + exfalso. apply Ha. now left.
  - apply IH; [intros Hx; apply Ha; now right
              | intros Hx; apply Hb; now right | exact Hrest].
Qed.

(** ** The text of the input file *)

Section Splitting.

Variable sep : char.

Lemma split_not_nil s : Infos.split sep s <> [].
Proof.
  destruct s as [|c s]; cbn [Infos.split]; [discriminate|].
  destruct (c =? sep)%N; [discriminate|].
  destruct (Infos.split sep s); discriminate.
Qed.

(** A piece without separator, then a separator. *)
Lemma split_app_sep p rest :
  ~ In sep p ->
  Infos.split sep (p ++ sep :: rest) = p :: Infos.split sep rest.
Proof.
  induction p as [|c p IH]; intros Hp; cbn [app Infos.split].
  - now rewrite N.eqb_refl.
  - destruct (N.eqb_spec c sep) as [->|_]; [exfalso; apply Hp; now left|].
    rewrite IH; [reflexivity | intros H; apply Hp; now right].
Qed.

Lemma split_piece p : ~ In sep p -> Infos.split sep p = [p].
Proof.
  induction p as [|c p IH]; intros Hp; cbn [Infos.split]; [reflexivity|].
  destruct (N.eqb_spec c sep) as [->|_]; [exfalso; apply Hp; now left|].
  rewrite IH; [reflexivity | intros H; apply Hp; now right].
Qed.

(** Splitting undoes joining. *)
Lemma split_join pieces :
  pieces <> [] -> Forall (fun p => ~ In sep p) pieces ->
  Infos.split sep (join sep pieces) = pieces.
Proof.
  induction pieces as [|p pieces IH]; intros Hne H; [congruence|].
  inversion H as [|? ? Hp Hrest]; subst.
  destruct pieces as [|q pieces]; [now apply split_piece|].
  change (join sep (p :: q :: pieces))
    with (p ++ sep :: join sep (q :: pieces)).
  rewrite (split_app_sep _ _ Hp), IH; [reflexivity | discriminate | exact Hrest].
Qed.

(** A text that ends with the separator has an empty last piece. *)
Lemma split_snoc_sep s :
  Infos.split sep (s ++ [sep]) = Infos.split sep s ++ [[]].
Proof.
  induction s as [|c s IH]; cbn [app Infos.split].
  - now rewrite N.eqb_refl.
  - destruct (c =? sep)%N; rewrite IH; [reflexivity|].
    pose proof (split_not_nil s) as Hne.
    destruct (Infos.split sep s); [congruence | reflexivity].
Qed.

(** No piece holds the separator, and the pieces hold characters of the
    text only. *)
Lemma split_pieces s :
  Forall (fun p => ~ In sep p /\ forall c, In c p -> In c s)
         (Infos.split sep s).
Proof.
  induction s as [|c s IH]; cbn [Infos.split].
  - constructor; [|constructor]. split; [tauto | intros c []].
  - assert (IH' : Forall (fun p => ~ In sep p
                                   /\ forall d, In d p -> In d (c :: s))
                         (Infos.split sep s)).
    { eapply Forall_impl; [exact IH|]. cbn beta. intros p [H1 H2].
      split; [exact H1 | intros d Hd; right; auto]. }
    destruct (N.eqb_spec c sep) as [->|Hc].
    + constructor; [|exact IH']. split; [tauto | intros d []].
    + destruct (Infos.split sep s) as [|p ps].
      * constructor; [|constructor]. split.
        -- intros [E|[]]. congruence.
        -- intros d [<-|[]]. now left.
      * inversion IH' as [|? ? [Hp1 Hp2] Hps]; subst.
        constructor; [|exact Hps]. split.
        -- intros [E|H]; [congruence | now apply Hp1].
        -- intros d [<-|H]; [now left | now apply Hp2].
Qed.

End Splitting.

(** *** Line breaks *)

Lemma universal_newlines_id s :
  ~ In Infos.carriage_return s -> Infos.universal_newlines s = s.
Proof.
  induction s as [|c s IH]; intros H; cbn [Infos.universal_newlines];
    [reflexivity|].
  destruct (N.eqb_spec c Infos.carriage_return) as [->|_];
    [exfalso; apply H; now left|].
  rewrite IH; [reflexivity | intros Hx; apply H; now right].
Qed.

Lemma universal_newlines_pair s :
  (forall c, In c (Infos.universal_newlines s) ->
             c <> Infos.carriage_return)
  /\ forall d, forall c,
       In c (Infos.universal_newlines (d :: s)) -> c <> Infos.carriage_return.
Proof.
  induction s as [|e s [IH1 IH2]].
  - split; [intros c []|]. intros d c. cbn [Infos.universal_newlines].
    destruct (N.eqb_spec d Infos.carriage_return).
    + intros [<-|[]]. discriminate.
    + intros [<-|[]]. assumption.
  - split; [apply IH2|]. intros d c.
    cbn [Infos.universal_newlines].
    change (if (e =? Infos.carriage_return)%N
            then match s with
                 | [] => [Infos.line_feed]
                 | d0 :: rest' =>
                     if (d0 =? Infos.line_feed)%N
                     then Infos.line_feed :: Infos.universal_newlines rest'
                     else Infos.line_feed :: Infos.universal_newlines s
                 end
            else e :: Infos.universal_newlines s)
      with (Infos.universal_newlines (e :: s)).
    destruct (N.eqb_spec d Infos.carriage_return).
    + destruct (N.eqb_spec e Infos.line_feed).
      * intros [<-|H]; [discriminate | now apply IH1].
      * intros [<-|H]; [discriminate | now apply (IH2 e)].
    + intros [<-|H]; [assumption | now apply (IH2 e)].
Qed.

(** The text read holds no carriage return. *)
Lemma universal_newlines_no_cr s :
  ~ In Infos.carriage_return (Infos.universal_newlines s).
Proof.
  intros H. now apply (proj1 (universal_newlines_pair s) _ H).
Qed.

Lemma after_readline_app header body :
  ~ In Infos.line_feed header ->
  Infos.after_readline (header ++ Infos.line_feed :: body) = body.
Proof.
  induction header as [|c h IH]; intros H; cbn [app Infos.after_readline].
  - now rewrite N.eqb_refl.
  - destruct (N.eqb_spec c Infos.line_feed) as [->|_];
      [exfalso; apply H; now left|].
    apply IH. intros Hx. apply H. now right.
Qed.

Lemma after_readline_incl s c :
  In c (Infos.after_readline s) -> In c s.
Proof.
  induction s as [|d s IH]; cbn [Infos.after_readline]; [tauto|].
  destruct (d =? Infos.line_feed)%N; intros H; right; auto.
Qed.

(** What follows the first line of a text that ends with a line feed is
    empty or ends with a line feed. *)
Lemma after_readline_last s :
  last s = Some Infos.line_feed ->
  Infos.after_readline s = []
  \/ last (Infos.after_readline s) = Some Infos.line_feed.
Proof.
  induction s as [|c s IH]; intros H; [discriminate|].
  cbn [Infos.after_readline].
  destruct s as [|d s].
  - destruct (c =? Infos.line_feed)%N; now left.
  - change (last (c :: d :: s)) with (last (d :: s)) in H.
    destruct (c =? Infos.line_feed)%N; [now right | now apply IH].
Qed.

Lemma after_readline_plain s :
  ~ In Infos.line_feed s -> Infos.after_readline s = [].
Proof.
  induction s as [|c s IH]; intros H; cbn [Infos.after_readline];
    [reflexivity|].
  destruct (N.eqb_spec c Infos.line_feed) as [->|_];
    [exfalso; apply H; now left|].
  apply IH. intros Hx. apply H. now right.
Qed.

Lemma universal_newlines_not_nil s :
  s <> [] -> Infos.universal_newlines s <> [].
Proof.
  destruct s as [|c s]; [congruence|]. intros _.
  cbn [Infos.universal_newlines].
  destruct (c =? Infos.carriage_return)%N; [|discriminate].
  destruct s as [|d s]; [discriminate|].
  destruct (d =? Infos.line_feed)%N; discriminate.
Qed.

Lemma universal_newlines_last_pair s :
  (last s = Some Infos.line_feed \/ last s = Some Infos.carriage_return ->
   last (Infos.universal_newlines s) = Some Infos.line_feed)
  /\ forall d,
       last (d :: s) = Some Infos.line_feed
       \/ last (d :: s) = Some Infos.carriage_return ->
       last (Infos.universal_newlines (d :: s)) = Some Infos.line_feed.
Proof.
  induction s as [|e s [IH1 IH2]].
  - split; [intros [H|H]; discriminate|]. intros d H.
    cbn [Infos.universal_newlines].
    destruct (N.eqb_spec d Infos.carriage_return) as [->|Hd]; [reflexivity|].
    destruct H as [H|H]; inversion H; subst; [reflexivity | congruence].
  - split; [apply IH2|]. intros d H.
    change (last (d :: e :: s)) with (last (e :: s)) in H.
    assert (Hrest : forall x,
               last (x :: Infos.universal_newlines (e :: s))
               = Some Infos.line_feed).
    { intros x. rewrite last_cons, (IH2 e H). reflexivity. }
    cbn [Infos.universal_newlines].
    change (if (e =? Infos.carriage_return)%N
            then match s with
                 | [] => [Infos.line_feed]
                 | d0 :: rest' =>
                     if (d0 =? Infos.line_feed)%N
                     then Infos.line_feed :: Infos.universal_newlines rest'
                     else Infos.line_feed :: Infos.universal_newlines s
                 end
            else e :: Infos.universal_newlines s)
      with (Infos.universal_newlines (e :: s)).
    destruct (d =? Infos.carriage_return)%N; [|apply Hrest].
    destruct (N.eqb_spec e Infos.line_feed) as [->|He]; [|apply Hrest].
    destruct s as [|f s]; [reflexivity|].
    change (last (Infos.line_feed :: f :: s)) with (last (f :: s)) in H.
    rewrite last_cons, (IH1 H). reflexivity.
Qed.

Lemma universal_newlines_last s :
  last s = Some Infos.line_feed \/ last s = Some Infos.carriage_return ->
  last (Infos.universal_newlines s) = Some Infos.line_feed.
Proof. apply universal_newlines_last_pair. Qed.

(** *** The list comprehension *)

Lemma PhoneInfo_of_fields i : Infos.PhoneInfo_of (fields_of i) = Infos.Ok i.
Proof. now destruct i. Qed.

Lemma PhoneInfo_of_Ok fields i :
  Infos.PhoneInfo_of fields = Infos.Ok i -> fields = fields_of i.
Proof.
  do 12 (destruct fields as [|? fields]; try discriminate).
  intros H. inversion H; subst. reflexivity.
Qed.

Lemma comprehension_Ok lines : forall infos,
  Infos.comprehension lines = Infos.Ok infos ->
  Forall2 (fun line i => Infos.split comma line = fields_of i) lines infos.
Proof.
  induction lines as [|line lines IH]; intros infos H;
    cbn [Infos.comprehension] in H.
  - inversion H; subst. constructor.
  - destruct (Infos.PhoneInfo_of (Infos.split comma line)) as [i|n] eqn:Hi;
      [|discriminate].
    destruct (Infos.comprehension lines) as [xs|n]; [|discriminate].
    inversion H; subst. constructor; [|now apply IH].
    now apply PhoneInfo_of_Ok.
Qed.

Lemma comprehension_lines infos :
  Forall (fun i => Forall (fun f => ~ In comma f) (fields_of i)) infos ->
  Infos.comprehension (List.map (fun i => join comma (fields_of i)) infos)
  = Infos.Ok infos.
Proof.
  induction 1 as [|i infos Hi _ IH]; [reflexivity|].
  cbn [List.map Infos.comprehension].
  rewrite split_join; [|now destruct i | exact Hi].
  now rewrite PhoneInfo_of_fields, IH.
Qed.

Lemma plain_field_spec f :
  plain_field f = true <->
  ~ In comma f /\ ~ In Infos.line_feed f /\ ~ In Infos.carriage_return f.
Proof.
  unfold plain_field. rewrite forallb_forall. split.
  - intros H. repeat split; intros Hx; specialize (H _ Hx);
      vm_compute in H; discriminate.
  - intros (H1 & H2 & H3) c Hc. apply negb_true_iff.
    destruct (N.eqb_spec c comma) as [->|_]; [contradiction|].
    destruct (N.eqb_spec c Infos.line_feed) as [->|_]; [contradiction|].
    destruct (N.eqb_spec c Infos.carriage_return) as [->|_];
      [contradiction | reflexivity].
Qed.

Lemma plain_line_spec s :
  plain_line s = true <->
  ~ In Infos.line_feed s /\ ~ In Infos.carriage_return s.
Proof.
  unfold plain_line. rewrite forallb_forall. split.
  - intros H. split; intros Hx; specialize (H _ Hx);
      vm_compute in H; discriminate.
  - intros (H2 & H3) c Hc. apply negb_true_iff.
    destruct (N.eqb_spec c Infos.line_feed) as [->|_]; [contradiction|].
    destruct (N.eqb_spec c Infos.carriage_return) as [->|_];
      [contradiction | reflexivity].
Qed.

Lemma In_join sep pieces c :
  In c (join sep pieces) -> c = sep \/ exists p, In p pieces /\ In c p.
Proof.
  induction pieces as [|p pieces IH]; [intros []|].
  destruct pieces as [|q pieces].
  - cbn [join]. intros H. right. exists p. split; [now left | exact H].
  - change (join sep (p :: q :: pieces))
      with (p ++ sep :: join sep (q :: pieces)).
    intros H. apply in_app_or in H. destruct H as [H|[<-|H]].
    + right. exists p. split; [now left | exact H].
    + now left.
    + destruct (IH H) as [->|(p' & Hp' & Hc)]; [now left|].
      right. exists p'. split; [now right | exact Hc].
Qed.

(** ** Further properties *)

(** X1.  A price the parser returns is a number that is not negative:
    [0 <= v] holds, so [v] is neither negative nor [nan]. *)
Theorem extract_price_not_negative (text : str) (v : float) :
  _extract_price text = Return v -> (0 <=? v)%float = true.
Proof. apply extract_price_nonneg. Qed.

Lemma extract_price_not_negative_witness :
  (0 <=? literal 1999 2)%float = true.
Proof.
  apply (extract_price_not_negative (py "19,99 €") (literal 1999 2)).
  vm_compute; reflexivity.
Defined.

(** X2.  The extraction returns a list exactly when every fragment holds a
    digit and the first fragment, if there is one, does not begin with
    [+]. *)
Theorem extract_prices_succeeds_iff (price_tags : list str) :
  (exists ps, _extract_prices price_tags = Return ps)
  <-> forallb has_digit price_tags = true
      /\ starts_price price_tags = true.
Proof.
  split.
  - intros [ps H]. apply extract_prices_Return in H.
    destruct H as (fr & H & _).
    destruct (loop_Return_criterion _ _ _ H) as [Hd [Hs|[r Hr]]];
      [now split | discriminate].
  - intros [Hd Hs].
    destruct (loop_succeeds price_tags Listing.init Hd (or_introl Hs))
      as [fr H].
    exists (Listing.heap fr). apply extract_prices_Return. eauto.
Qed.

(** X3.  In the list the extraction returns, the [Price] a fragment created
    has the base price parsed from that fragment, and its shipping is the
    value of the last of the [+] fragments that follow the fragment
    directly, or [0] when none does. *)
Theorem extract_prices_block
    (before : list str) (pt : str) (pluses after : list str)
    (ps : list Price) :
  _extract_prices (before ++ pt :: pluses ++ after) = Return ps ->
  is_shipping pt = false -> forallb is_shipping pluses = true ->
  starts_price after = true ->
  exists p,
    ps !! length (price_fragments before) = Some p
    /\ _extract_price pt = Return (base_price p)
    /\ match last pluses with
       | None => shipping p = 0%float
       | Some t => _extract_price t = Return (shipping p)
       end.
Proof.
  intros H Hpt Hpl Hafter. apply extract_prices_Return in H.
  destruct H as (fr & H & <-).
  exact (run_block_cell _ _ _ _ _ H Hpt Hpl Hafter).
Qed.

Lemma extract_prices_block_witness :
  exists p,
    [{| base_price := literal 10 0; shipping := literal 2 0 |};
     {| base_price := literal 5 0; shipping := 0 |}]
      !! length (price_fragments []) = Some p
    /\ _extract_price (py "10 €") = Return (base_price p)
    /\ match last [py "+ 1 €"; py "+ 2 €"] with
       | None => shipping p = 0%float
       | Some t => _extract_price t = Return (shipping p)
       end.
Proof.
  apply (extract_prices_block [] (py "10 €") [py "+ 1 €"; py "+ 2 €"]
           [py "5 €"]);
    vm_compute; reflexivity.
Defined.

(** X4.  When the threshold times the mean of the totals is not strictly
    positive (a zero or negative mean or threshold, or [nan]),
    [remove_outliers] removes every price. *)
Theorem remove_outliers_bound_not_positive (self : Phone) (deviation : float) :
  (0 <? deviation * mean (List.map total (prices self)))%float = false ->
  remove_outliers self deviation = Return [].
Proof.
  intros H. rewrite remove_outliers_eq. f_equal. unfold outliers_removed.
  apply filter_none. intros p _.
  destruct (within deviation (mean (List.map total (prices self))) p) eqn:E;
    [|reflexivity].
  rewrite (within_bound_pos _ _ _ E) in H. discriminate.
Qed.

Lemma remove_outliers_bound_not_positive_witness :
  remove_outliers (phone_of_totals [10; 20]%float) 0%float = Return [].
Proof.
  apply (remove_outliers_bound_not_positive
           (phone_of_totals [10; 20]%float) 0%float).
  vm_compute; reflexivity.
Defined.

(** X5.  One price whose total is infinite makes [remove_outliers] remove
    every price. *)
Theorem remove_outliers_infinite_total
    (self : Phone) (deviation : float) (p : Price) :
  In p (prices self) -> total p = infinity ->
  remove_outliers self deviation = Return [].
Proof.
  intros Hp Hinf. rewrite remove_outliers_eq. f_equal.
  unfold outliers_removed. apply filter_none. intros q _.
  apply within_overflow. unfold mean. rewrite div_spec.
  apply SFdiv_overflow, py_sum_overflow.
  rewrite <- Hinf. now apply in_map.
Qed.

Lemma remove_outliers_infinite_total_witness :
  remove_outliers (phone_of_totals [10; infinity]%float) default_deviation
  = Return [].
Proof.
  apply (remove_outliers_infinite_total
           (phone_of_totals [10; infinity]%float) default_deviation
           (new_Price infinity));
    [right; left; reflexivity | vm_compute; reflexivity].
Defined.

(** X6.  For every [Phone], [cheapest] and [most_expensive] return finite
    numbers: an infinite or [nan] total never reaches the range. *)
Theorem range_finite (self : Phone) :
  exists lo hi,
    cheapest self = Return lo /\ most_expensive self = Return hi
    /\ is_finite lo = true /\ is_finite hi = true.
Proof.
  destruct (outliers_removed default_deviation (prices self))
    as [|p kept] eqn:E.
  - exists 0%float, 0%float. rewrite cheapest_eq, most_expensive_eq, E.
    repeat split.
  - destruct (range_spec self (p :: kept) E)
      as (lo & hi & Hlo & Hhi & Hinlo & Hinhi & _); [discriminate|].
    exists lo, hi. split; [exact Hlo|]. split; [exact Hhi|].
    assert (Hfin : forall t, In t (List.map total (p :: kept)) ->
                             is_finite t = true).
    { intros t Ht. apply in_map_iff in Ht. destruct Ht as (q & <- & Hq).
      rewrite <- E in Hq. apply outliers_removed_In in Hq.
      destruct Hq as [_ Hq]. exact (within_finite _ _ _ Hq). }
    split; apply Hfin; assumption.
Qed.

(** X7.  When the extraction succeeds on the fragments of a page, the
    [Phone] of the lookup has the given device and a range with
    [0 <= cheapest <= most_expensive]. *)
Theorem lookup_price_range
    (i : PhoneInfo) (price_tags : list str) (phone : Phone) :
  lookup_price i price_tags = Return phone ->
  info phone = i
  /\ exists lo hi,
       cheapest phone = Return lo /\ most_expensive phone = Return hi
       /\ (0 <=? lo)%float = true /\ (lo <=? hi)%float = true.
Proof.
  unfold lookup_price. intros H. apply bind_Return in H.
  destruct H as (ps & Hps & H). inversion H; subst phone. clear H.
  split; [reflexivity|].
  pose proof (extract_prices_nonneg _ _ Hps) as Hn.
  set (self := {| info := i; prices := ps |}).
  destruct (outliers_removed default_deviation (prices self))
    as [|p kept] eqn:E.
  - exists 0%float, 0%float. rewrite cheapest_eq, most_expensive_eq, E.
    repeat split.
  - destruct (range_spec self (p :: kept) E)
      as (lo & hi & Hlo & Hhi & Hinlo & _ & Hall); [discriminate|].
    exists lo, hi. split; [exact Hlo|]. split; [exact Hhi|]. split.
    + apply in_map_iff in Hinlo. destruct Hinlo as (q & <- & Hq).
      rewrite <- E in Hq. apply outliers_removed_In in Hq.
      destruct Hq as [Hq _]. apply total_nonneg.
      rewrite List.Forall_forall in Hn. now apply Hn.
    + inversion Hall as [|? ? [Hl Hh] _]; subst.
      exact (leb_trans _ _ _ Hl Hh).
Qed.

Lemma lookup_price_range_witness :
  info {| info := sample_info;
          prices := [{| base_price := literal 1999 2;
                        shipping := literal 499 2 |}] |} = sample_info
  /\ exists lo hi,
       cheapest {| info := sample_info;
                   prices := [{| base_price := literal 1999 2;
                                 shipping := literal 499 2 |}] |}
       = Return lo
       /\ most_expensive {| info := sample_info;
                            prices := [{| base_price := literal 1999 2;
                                          shipping := literal 499 2 |}] |}
          = Return hi
       /\ (0 <=? lo)%float = true /\ (lo <=? hi)%float = true.
Proof.
  apply (lookup_price_range sample_info [py "19,99 €"; py "+ 4,99 €"]).
  vm_compute; reflexivity.
Defined.

(** X8.  The search address of a device holds no space, whatever its model
    name. *)
Theorem url_no_space (i : PhoneInfo) : ~ In space (_url i).
Proof.
  unfold _url. intros H. apply in_app_or in H. destruct H as [H|H].
  - vm_compute in H. repeat (destruct H as [H|H]; [discriminate|]). exact H.
  - apply in_app_or in H. destruct H as [H|H].
    + now apply replace_char_not_In in H.
    + vm_compute in H. repeat (destruct H as [H|H]; [discriminate|]). exact H.
Qed.

(** X9.  Two devices whose model names hold no [+] have the same search
    address only when their model names are equal. *)
Theorem url_injective (a b : PhoneInfo) :
  ~ In plus_sign (model_name a) -> ~ In plus_sign (model_name b) ->
  _url a = _url b -> model_name a = model_name b.
Proof.
  unfold _url. intros Ha Hb H. apply app_inv_head in H.
  apply app_inv_tail in H. exact (replace_char_inj _ _ _ _ Ha Hb H).
Qed.

Lemma url_injective_witness :
  model_name sample_info
  = model_name {| manufacturer := py "Google"; model_name := py "Pixel 4";
                  model_code := py "coral"; ram := py "5464MB";
                  form_factor := py "Phone"; soc := py "Qualcomm SM8150";
                  screen_sizes := py "1440x3040";
                  screen_densities := py "560"; ABIs := py "arm64-v8a";
                  android_sdk_versions := py "29";
                  opengl_es_versions := py "3.2" |}.
Proof.
  apply url_injective;
    [vm_compute; intuition discriminate
    | vm_compute; intuition discriminate
    | vm_compute; reflexivity].
Defined.

(** X10.  [read_infos] returns the devices of a file, in order and with
    every field as it is written: for a header line without line break and
    a non-empty list of devices whose fields hold no comma and no line
    break, reading the text of the file gives back the devices. *)
Theorem read_infos_file_text (header : str) (infos : list PhoneInfo) :
  plain_line header = true -> infos <> [] ->
  Forall (fun i => forallb plain_field (fields_of i) = true) infos ->
  Infos.read_infos (file_text header infos) = Infos.Ok infos.
Proof.
  intros Hh Hne Hf. apply plain_line_spec in Hh. destruct Hh as [Hlf Hcr].
  assert (Hfields : forall i f, In i infos -> In f (fields_of i) ->
            ~ In comma f /\ ~ In Infos.line_feed f
            /\ ~ In Infos.carriage_return f).
  { intros i f Hi Hfi. rewrite List.Forall_forall in Hf.
    specialize (Hf _ Hi). rewrite forallb_forall in Hf.
    now apply plain_field_spec, Hf. }
  assert (Hline : forall i c, In i infos ->
            In c (join comma (fields_of i)) ->
            c <> Infos.line_feed /\ c <> Infos.carriage_return).
  { intros i c Hi Hc. apply In_join in Hc.
    destruct Hc as [->|(f & Hfi & Hc)]; [split; discriminate|].
    destruct (Hfields _ _ Hi Hfi) as (_ & H2 & H3).
    split; intros ->; contradiction. }
  unfold Infos.read_infos, file_text.
  rewrite universal_newlines_id.
  - rewrite (after_readline_app _ _ Hlf), split_join.
    + apply comprehension_lines. apply List.Forall_forall. intros i Hi.
      apply List.Forall_forall. intros f Hfi.
      now destruct (Hfields _ _ Hi Hfi).
    + destruct infos; [congruence | discriminate].
    + apply List.Forall_forall. intros l Hl. apply in_map_iff in Hl.
      destruct Hl as (i & <- & Hi). intros Hc.
      now destruct (Hline _ _ Hi Hc).
  - intros H. apply in_app_or in H. destruct H as [H|[H|H]];
      [contradiction | discriminate |].
    apply In_join in H. destruct H as [H|(l & Hl & Hc)]; [discriminate|].
    apply in_map_iff in Hl. destruct Hl as (i & <- & Hi).
    now destruct (Hline _ _ Hi Hc).
Qed.

Lemma read_infos_file_text_witness :
  Infos.read_infos (file_text (py "Manufacturer,Model Name")
                              [sample_info; sample_info])
  = Infos.Ok [sample_info; sample_info].
Proof.
  apply read_infos_file_text;
    [vm_compute; reflexivity | discriminate
    | repeat constructor; vm_compute; reflexivity].
Defined.

(** X11.  [read_infos] raises [TypeError] on a text that ends with a line
    break, and on a text without any line break (an empty file, a header
    alone): the empty last line gives a single field. *)
Theorem read_infos_trailing_newline (text : str) :
  last text = Some Infos.line_feed
  \/ last text = Some Infos.carriage_return
  \/ plain_line text = true ->
  exists n, Infos.read_infos text = Infos.TypeError n.
Proof.
  intros H. unfold Infos.read_infos.
  assert (Hd : Infos.after_readline (Infos.universal_newlines text) = []
               \/ last (Infos.after_readline (Infos.universal_newlines text))
                  = Some Infos.line_feed).
  { destruct H as [H|[H|H]].
    - apply after_readline_last, universal_newlines_last. now left.
    - apply after_readline_last, universal_newlines_last. now right.
    - apply plain_line_spec in H. destruct H as [Hlf Hcr].
      rewrite (universal_newlines_id _ Hcr). left.
      now apply after_readline_plain. }
  destruct Hd as [->|Hd]; [exists 1%nat; reflexivity|].
  apply last_Some in Hd. destruct Hd as [d' ->].
  rewrite split_snoc_sep.
  destruct (Infos.comprehension (Infos.split Infos.line_feed d' ++ [[]]))
    as [infos|n] eqn:E; [|eauto].
  apply comprehension_Ok in E. apply Forall2_app_inv_l in E.
  destruct E as (k1 & k2 & _ & E & _).
  inversion E as [|? i ? ? Hi _]; subst.
  destruct i; discriminate Hi.
Qed.

Lemma read_infos_trailing_newline_witness :
  exists n,
    Infos.read_infos (file_text (py "Manufacturer,Model Name") [sample_info]
                      ++ [Infos.line_feed])
    = Infos.TypeError n.
Proof.
  apply read_infos_trailing_newline. left. vm_compute; reflexivity.
Defined.

(** X12.  When [read_infos] returns, it returns at least one device, and no
    field of a device holds a comma or a line break. *)
Theorem read_infos_fields_plain (text : str) (infos : list PhoneInfo) :
  Infos.read_infos text = Infos.Ok infos ->
  infos <> []
  /\ Forall (fun i => forallb plain_field (fields_of i) = true) infos.
Proof.
  unfold Infos.read_infos. intros H. apply comprehension_Ok in H.
  set (d := Infos.after_readline (Infos.universal_newlines text)) in *.
  split.
  - intros ->. inversion H as [E|]. symmetry in E.
    exact (split_not_nil _ _ E).
  - pose proof (split_pieces Infos.line_feed d) as Hlines.
    assert (Hcr : ~ In Infos.carriage_return d).
    { intros Hx. apply after_readline_incl in Hx.
      exact (universal_newlines_no_cr _ Hx). }
    induction H as [|line i lines infos Hi _ IH]; [constructor|].
    inversion Hlines as [|? ? [Hlf Hsub] Hrest]; subst.
    constructor; [|exact (IH Hrest)].
    apply forallb_forall. intros f Hf. apply plain_field_spec.
    pose proof (split_pieces comma line) as Hfs. rewrite Hi in Hfs.
    rewrite List.Forall_forall in Hfs. destruct (Hfs _ Hf) as [Hc Hin].
    split; [exact Hc|]. split; intros Hx; apply Hin in Hx; auto.
Qed.

Lemma read_infos_fields_plain_witness :
  [sample_info] <> []
  /\ Forall (fun i => forallb plain_field (fields_of i) = true) [sample_info].
Proof.
  apply (read_infos_fields_plain
           (file_text (py "Manufacturer,Model Name") [sample_info])).
  vm_compute; reflexivity.
Defined.
